(** * Reduced density matrices from an FCI wavefunction (lib/mcscf/fci_rdm.c)

    A shallow embedding of the C translation unit [fci_rdm.c]: the link-table
    compactor, the T1 builders, the density accumulation kernels, the
    OpenMP driver and the direct 1-RDM routines, followed by the properties
    established about them.

    Conventions of the embedding.
    - [double] is an instance of the class [Scalar]; the instance
      [binary64] is IEEE-754 double precision (Rocq's primitive floats), the
      instance [exactQ] is exact rational arithmetic.
    - Sizes and loop counters ([norb], [na], [fillcnt], [k], ...) are [nat];
      the [int] entries of a raw link table and the fields of a compacted
      record are [Z], with the narrowing conversions written out.
    - A buffer is a [list]; a pointer into a buffer is the buffer together
      with an offset.  C leaves a read or write outside a buffer undefined:
      here such a read yields zero and such a write is dropped. *)

From Stdlib Require Import ZArith QArith Qcanon Floats Ring Lia.
From stdpp Require Import base list numbers.

Close Scope Q_scope.
Close Scope Qc_scope.
Close Scope Z_scope.
Open Scope nat_scope.

(** ** Scalars *)

(** The operations the translation unit applies to [double] values.
    [of_int] is the conversion from [int] ([const double D1 = 1],
    [csum = 0], [sign * pci[str1]]); [fltb x y] is [x < y]. *)
Class Scalar (F : Type) := {
  of_int : Z → F;
  fadd : F → F → F;
  fsub : F → F → F;
  fmul : F → F → F;
  fltb : F → F → bool;
  CSUMTHR : F;   (* #define CSUMTHR 1e-28 *)
  SQRT2 : F      (* #define SQRT2 1.4142135623730950488 *)
}.

Definition float_of_int (z : Z) : float :=
  match z with
  | Z0 => PrimFloat.zero
  | Zpos _ => PrimFloat.of_uint63 (Uint63.of_Z z)
  | Zneg p => PrimFloat.opp (PrimFloat.of_uint63 (Uint63.of_Z (Zpos p)))
  end.

(** IEEE-754 binary64.  The two literals are the doubles nearest to the
    decimal constants of the source. *)
#[export] Instance binary64 : Scalar float := {
  of_int := float_of_int;
  fadd := PrimFloat.add;
  fsub := PrimFloat.sub;
  fmul := PrimFloat.mul;
  fltb := PrimFloat.ltb;
  CSUMTHR := 0x1.fb0f6be506019p-94%float;
  SQRT2 := 0x1.6a09e667f3bcdp+0%float
}.

(** [shl_pos n m] is the mantissa [m] shifted left by [n] bits. *)
Fixpoint shl_pos (n : nat) (m : positive) : positive :=
  match n with
  | O => m
  | S n => xO (shl_pos n m)
  end.

Definition Qc_ltb (x y : Qc) : bool :=
  match (x ?= y)%Qc with Lt => true | _ => false end.

(** Exact arithmetic on rationals, with the decimal constants themselves. *)
#[export] Instance exactQ : Scalar Qc := {
  of_int := fun z => Q2Qc (inject_Z z);
  fadd := Qcplus;
  fsub := Qcminus;
  fmul := Qcmult;
  fltb := Qc_ltb;
  CSUMTHR := Q2Qc (1 # 10 ^ 28);
  SQRT2 := Q2Qc (14142135623730950488 # 10 ^ 19)
}.

(** The laws of exact arithmetic (rationals, reals).  Doubles do not
    satisfy them: a statement that assumes them says what the routine
    computes before rounding, not what it returns in double precision. *)
Class ScalarLaws (F : Type) `{Scalar F} : Prop := {
  scalar_ring :
    ring_theory (of_int 0) (of_int 1) fadd fmul fsub (fsub (of_int 0)) (@eq F);
  of_int_succ : ∀ n : nat,
    of_int (Z.of_nat (S n)) = fadd (of_int (Z.of_nat n)) (of_int 1)
}.

(** ** Loops and buffers *)

(** [for (k = 0; k < n; k++) s = body k s] *)
Definition for_ {S : Type} (n : nat) (body : nat → S → S) (s : S) : S :=
  fold_left (fun s k => body k s) (seq 0 n) s.

(** ** The compacted excitation record *)

(** [typedef struct { unsigned int addr; unsigned char a; unsigned char i;
    char sign; char _padding; } _LinkT;] with the accessors named after the
    macros that read the fields.  [char] is signed, as on the x86 ABIs. *)
Record LinkT := mkLinkT {
  EXTRACT_ADDR : Z;
  EXTRACT_A : Z;
  EXTRACT_I : Z;
  EXTRACT_SIGN : Z
}.

#[export] Instance LinkT_eq_dec : EqDecision LinkT.
Proof. solve_decision. Defined.

(** Conversions of an [int] to the field types, and of the [unsigned int]
    field back to [int]. *)
Definition to_uchar (z : Z) : Z := z mod 2 ^ 8.
Definition to_schar (z : Z) : Z := (z + 2 ^ 7) mod 2 ^ 8 - 2 ^ 7.
Definition to_uint (z : Z) : Z := z mod 2 ^ 32.
Definition to_int (z : Z) : Z := (z + 2 ^ 31) mod 2 ^ 32 - 2 ^ 31.

Definition ldi (link_index : list Z) (n : nat) : Z := default 0%Z (link_index !! n).

Definition LinkT0 : LinkT := mkLinkT 0 0 0 0.

Definition tab_at (clink : list LinkT) (n : nat) : LinkT := default LinkT0 (clink !! n).

(** The four assignments [clink[j].a = a; clink[j].i = i;
    clink[j].sign = sign; clink[j].addr = str1;] of [int] values. *)
Definition store_link (a i str1 sign : Z) : LinkT :=
  {| EXTRACT_ADDR := to_uint str1; EXTRACT_A := to_uchar a;
     EXTRACT_I := to_uchar i; EXTRACT_SIGN := to_schar sign |}.

(** [compress_link]: [clink] and [link_index] advance by [nlink] and
    [nlink * 4] per string; [norb] is not used. *)
Definition compress_link (clink : list LinkT) (link_index : list Z)
    (norb nstr nlink : nat) : list LinkT :=
  for_ nstr (fun k clink =>
    for_ nlink (fun j clink =>
      let a := ldi link_index (k * (nlink * 4) + (j * 4 + 0)) in
      let i := ldi link_index (k * (nlink * 4) + (j * 4 + 1)) in
      let str1 := ldi link_index (k * (nlink * 4) + (j * 4 + 2)) in
      let sign := ldi link_index (k * (nlink * 4) + (j * 4 + 3)) in
      <[k * nlink + j := store_link a i str1 sign]> clink) clink) clink.

(** [malloc(sizeof(_LinkT) * n)] *)
Definition malloc_link (n : nat) : list LinkT := replicate n LinkT0.

Section Kernels.
Context {F : Type} `{Scalar F}.

Definition D0 : F := of_int 0.
Definition D1 : F := of_int 1.
Definition D2 : F := of_int 2.

Definition ld (buf : list F) (n : nat) : F := default D0 (buf !! n).

(** A read through a pointer displaced by an [int]. *)
Definition ldZ (buf : list F) (z : Z) : F :=
  if decide (0 ≤ z)%Z then ld buf (Z.to_nat z) else D0.

(** [buf[n] += x] and [buf[n] -= x] *)
Definition add_at (buf : list F) (n : nat) (x : F) : list F :=
  <[n := fadd (ld buf n) x]> buf.
Definition sub_at (buf : list F) (n : nat) (x : F) : list F :=
  <[n := fsub (ld buf n) x]> buf.

(** [memset(buf + off, 0, sizeof(double) * n)] *)
Definition memset0 (buf : list F) (off n : nat) : list F :=
  for_ n (fun k buf => <[off + k := D0]> buf) buf.

(** Scratch memory.  Every cell the kernels read from a scratch buffer is
    written first (by [memset], or by the beta pass, which clears each column
    before it accumulates into it), so its initial contents are immaterial;
    it is zero here. *)
Definition malloc (n : nat) : list F := replicate n D0.

(** ** T1 builders *)

(** [rdm2_a_t1]; [ci0] is the pointer [ci0 + ci_off]. *)
Definition rdm2_a_t1 (ci0 : list F) (ci_off : nat) (t1 : list F)
    (fillcnt stra_id norb nstrb nlinka : nat) (clink_indexa : list LinkT)
    : list F * F :=
  let nnorb := norb * norb in
  for_ nlinka (fun j s =>
    let r := tab_at clink_indexa (stra_id * nlinka + j) in
    let i := Z.to_nat (EXTRACT_I r) in
    let a := Z.to_nat (EXTRACT_A r) in
    let str1 := to_int (EXTRACT_ADDR r) in
    let sign := EXTRACT_SIGN r in
    let pci k := ldZ ci0 (Z.of_nat ci_off + str1 * Z.of_nat nstrb + Z.of_nat k) in
    let pt1 := i * norb + a in
    if decide (sign > 0)%Z then
      for_ fillcnt (fun k s =>
        (add_at s.1 (pt1 + k * nnorb) (pci k), fadd s.2 (fmul (pci k) (pci k)))) s
    else
      for_ fillcnt (fun k s =>
        (sub_at s.1 (pt1 + k * nnorb) (pci k), fadd s.2 (fmul (pci k) (pci k)))) s)
    (t1, D0).

(** [rdm2_0b_t1]; [clink_indexb] is the pointer [clink_indexb + tab_off]. *)
Definition rdm2_0b_t1 (ci0 : list F) (t1 : list F)
    (fillcnt stra_id norb nstrb nlinkb : nat)
    (clink_indexb : list LinkT) (tab_off : nat) : list F * F :=
  let nnorb := norb * norb in
  for_ fillcnt (fun str0 s =>
    for_ nlinkb (fun j s =>
      let r := tab_at clink_indexb (tab_off + str0 * nlinkb + j) in
      let i := Z.to_nat (EXTRACT_I r) in
      let a := Z.to_nat (EXTRACT_A r) in
      let str1 := to_int (EXTRACT_ADDR r) in
      let sign := EXTRACT_SIGN r in
      let pci := ldZ ci0 (Z.of_nat (stra_id * nstrb) + str1) in
      (add_at s.1 (str0 * nnorb + (i * norb + a)) (fmul (of_int sign) pci),
       fadd s.2 (fmul pci pci)))
      (memset0 s.1 (str0 * nnorb) nnorb, s.2))
    (t1, D0).

(** [kern_ms0_ab]: the beta pass runs first, the alpha pass adds on top of
    its result (the operands of [+] taken left to right). *)
Definition kern_ms0_ab (ci0 : list F) (t1 : list F)
    (fillcnt stra_id strb_id norb na nlink : nat) (clink_index : list LinkT)
    : list F * F :=
  let b := rdm2_0b_t1 ci0 t1 fillcnt stra_id norb na nlink
             clink_index (strb_id * nlink) in
  let a := rdm2_a_t1 ci0 strb_id b.1 fillcnt stra_id norb na nlink clink_index in
  (a.1, fadd b.2 a.2).

(** ** BLAS *)

(** Modelled from the spec: [dgemv_], declared in vhf/fblas.h, which is not
    part of the sources at hand.  The matrix-vector accumulate
    [y += alpha * A * x] of the call [dgemv_("N", m, n, alpha, A, m, x, 1,
    1.0, y, 1)], [A] column-major with leading dimension [m], in the loop
    order of the reference BLAS (whose shortcuts for zero operands, which
    save work and nothing else, are left out here and below). *)
Definition dgemv (m n : nat) (alpha : F) (A : list F)
    (x : list F) (x_off : nat) (y : list F) : list F :=
  for_ n (fun j y =>
    let temp := fmul alpha (ld x (x_off + j)) in
    for_ m (fun i y => add_at y i (fmul temp (ld A (i + j * m)))) y) y.

(** Modelled from the spec: [dsyrk_], declared in vhf/fblas.h.  The rank-k
    accumulate [C += alpha * A * A^T] of the call [dsyrk_("U", "N", n, k,
    alpha, A, n, 1.0, C, n)], restricted to the entries [C(i,j)] with
    [i <= j] of the column-major [C], that is, to the cells [i + j * n]. *)
Definition dsyrk (n k : nat) (alpha : F) (A : list F) (C : list F) : list F :=
  for_ n (fun j C =>
    for_ k (fun l C =>
      let temp := fmul alpha (ld A (j + l * n)) in
      for_ (S j) (fun i C => add_at C (i + j * n) (fmul temp (ld A (i + l * n)))) C)
      C) C.

(** Modelled from the spec: [dgemm_], declared in vhf/fblas.h.  The outer
    product accumulate [C += alpha * A * B^T] of the call [dgemm_("N", "T",
    m, n, k, alpha, A, m, B, n, 1.0, C, m)]. *)
Definition dgemm (m n k : nat) (alpha : F) (A B : list F) (C : list F) : list F :=
  for_ n (fun j C =>
    for_ k (fun l C =>
      let temp := fmul alpha (ld B (j + l * n)) in
      for_ m (fun i C => add_at C (i + j * m) (fmul temp (ld A (i + l * m)))) C)
      C) C.

(** ** Density accumulation kernels *)

(** The common signature of the block kernels: the accumulators [rdm1] and
    [rdm2] go in and come out. *)
Definition kernel_t : Type :=
  list F → list F → list F → list F → nat → nat → nat →
  nat → nat → nat → nat → nat → list LinkT → list LinkT → list F * list F.

Definition FCIrdm12kern_ms0 : kernel_t :=
  fun rdm1 rdm2 bra ket fillcnt stra_id strb_id
      norb na nb nlinka nlinkb clink_indexa clink_indexb =>
  let nnorb := norb * norb in
  let buf := malloc (nnorb * fillcnt) in
  let t := kern_ms0_ab ket buf fillcnt stra_id strb_id norb na nlinka clink_indexa in
  if fltb CSUMTHR t.2 then
    (dgemv nnorb fillcnt D1 t.1 ket (stra_id * na + strb_id) rdm1,
     dsyrk nnorb fillcnt D1 t.1 rdm2)
  else (rdm1, rdm2).

(** [for (i = fill0*nnorb; i < fill1*nnorb; i++) buf[i] *= SQRT2;] *)
Definition scale_sqrt2 (buf : list F) (lo hi : nat) : list F :=
  for_ (hi - lo) (fun d buf => <[lo + d := fmul (ld buf (lo + d)) SQRT2]> buf) buf.

Definition FCIrdm12kern_spin0 : kernel_t :=
  fun rdm1 rdm2 bra ket fillcnt stra_id strb_id
      norb na nb nlinka nlinkb clink_indexa clink_indexb =>
  if decide (stra_id < strb_id) then (rdm1, rdm2) else
  let nnorb := norb * norb in
  let buf := malloc (nnorb * na) in
  let '(fill0, fill1, buf) :=
    if decide (strb_id + fillcnt < stra_id) then (fillcnt, fillcnt, buf)
    else (stra_id - strb_id, stra_id - strb_id + 1,
          memset0 buf ((stra_id - strb_id) * nnorb) nnorb) in
  let b := rdm2_0b_t1 ket buf fill0 stra_id norb na nlinka
             clink_indexa (strb_id * nlinka) in
  let a := rdm2_a_t1 ket strb_id b.1 fill1 stra_id norb na nlinka clink_indexa in
  let csum := fadd b.2 a.2 in
  if fltb CSUMTHR csum then
    (dgemv nnorb fill1 D2 a.1 ket (stra_id * na + strb_id) rdm1,
     dsyrk nnorb fill1 D2 (scale_sqrt2 a.1 (fill0 * nnorb) (fill1 * nnorb)) rdm2)
  else (rdm1, rdm2).

Definition FCItdm12kern_ms0 : kernel_t :=
  fun tdm1 tdm2 bra ket fillcnt stra_id strb_id
      norb na nb nlinka nlinkb clink_indexa clink_indexb =>
  let nnorb := norb * norb in
  let buf0 := malloc (nnorb * fillcnt) in
  let buf1 := malloc (nnorb * fillcnt) in
  let t1 := kern_ms0_ab bra buf1 fillcnt stra_id strb_id norb na nlinka clink_indexa in
  if fltb t1.2 CSUMTHR then (tdm1, tdm2) else
  let t0 := kern_ms0_ab ket buf0 fillcnt stra_id strb_id norb na nlinka clink_indexa in
  if fltb t0.2 CSUMTHR then (tdm1, tdm2) else
  (dgemv nnorb fillcnt D1 t0.1 bra (stra_id * na + strb_id) tdm1,
   dgemm nnorb nnorb fillcnt D1 t0.1 t1.1 tdm2).

Definition FCIrdm12kern_a : kernel_t :=
  fun rdm1 rdm2 bra ket fillcnt stra_id strb_id
      norb na nb nlinka nlinkb clink_indexa clink_indexb =>
  let nnorb := norb * norb in
  let buf := memset0 (malloc (nnorb * fillcnt)) 0 (nnorb * fillcnt) in
  let t := rdm2_a_t1 ket strb_id buf fillcnt stra_id norb nb nlinka clink_indexa in
  if fltb CSUMTHR t.2 then
    (dgemv nnorb fillcnt D1 t.1 ket (stra_id * nb + strb_id) rdm1,
     dsyrk nnorb fillcnt D1 t.1 rdm2)
  else (rdm1, rdm2).

Definition FCIrdm12kern_b : kernel_t :=
  fun rdm1 rdm2 bra ket fillcnt stra_id strb_id
      norb na nb nlinka nlinkb clink_indexa clink_indexb =>
  let nnorb := norb * norb in
  let buf := malloc (nnorb * fillcnt) in
  let t := rdm2_0b_t1 ket buf fillcnt stra_id norb nb nlinkb
             clink_indexb (strb_id * nlinkb) in
  if fltb CSUMTHR t.2 then
    (dgemv nnorb fillcnt D1 t.1 ket (stra_id * nb + strb_id) rdm1,
     dsyrk nnorb fillcnt D1 t.1 rdm2)
  else (rdm1, rdm2).

Definition FCItdm12kern_a : kernel_t :=
  fun tdm1 tdm2 bra ket fillcnt stra_id strb_id
      norb na nb nlinka nlinkb clink_indexa clink_indexb =>
  let nnorb := norb * norb in
  let buf0 := malloc (nnorb * fillcnt) in
  let buf1 := memset0 (malloc (nnorb * fillcnt)) 0 (nnorb * fillcnt) in
  let t1 := rdm2_a_t1 bra strb_id buf1 fillcnt stra_id norb nb nlinka clink_indexa in
  if fltb t1.2 CSUMTHR then (tdm1, tdm2) else
  let buf0 := memset0 buf0 0 (nnorb * fillcnt) in
  let t0 := rdm2_a_t1 ket strb_id buf0 fillcnt stra_id norb nb nlinka clink_indexa in
  if fltb t0.2 CSUMTHR then (tdm1, tdm2) else
  (dgemv nnorb fillcnt D1 t0.1 bra (stra_id * nb + strb_id) tdm1,
   dgemm nnorb nnorb fillcnt D1 t0.1 t1.1 tdm2).

Definition FCItdm12kern_b : kernel_t :=
  fun tdm1 tdm2 bra ket fillcnt stra_id strb_id
      norb na nb nlinka nlinkb clink_indexa clink_indexb =>
  let nnorb := norb * norb in
  let buf0 := malloc (nnorb * fillcnt) in
  let buf1 := malloc (nnorb * fillcnt) in
  let t1 := rdm2_0b_t1 bra buf1 fillcnt stra_id norb nb nlinkb
              clink_indexb (strb_id * nlinkb) in
  if fltb t1.2 CSUMTHR then (tdm1, tdm2) else
  let t0 := rdm2_0b_t1 ket buf0 fillcnt stra_id norb nb nlinkb
              clink_indexb (strb_id * nlinkb) in
  if fltb t0.2 CSUMTHR then (tdm1, tdm2) else
  (dgemv nnorb fillcnt D1 t0.1 bra (stra_id * nb + strb_id) tdm1,
   dgemm nnorb nnorb fillcnt D1 t0.1 t1.1 tdm2).

Definition FCItdm12kern_ab : kernel_t :=
  fun tdm1 tdm2 bra ket fillcnt stra_id strb_id
      norb na nb nlinka nlinkb clink_indexa clink_indexb =>
  let nnorb := norb * norb in
  let bufb := malloc (nnorb * fillcnt) in
  let bufa := memset0 (malloc (nnorb * fillcnt)) 0 (nnorb * fillcnt) in
  let ta := rdm2_a_t1 bra strb_id bufa fillcnt stra_id norb nb nlinka clink_indexa in
  if fltb ta.2 CSUMTHR then (tdm1, tdm2) else
  let tb := rdm2_0b_t1 ket bufb fillcnt stra_id norb nb nlinkb
              clink_indexb (strb_id * nlinkb) in
  if fltb tb.2 CSUMTHR then (tdm1, tdm2) else
  (tdm1, dgemm nnorb nnorb fillcnt D1 tb.1 ta.1 tdm2).

End Kernels.

(** ** The parallel driver *)

Definition BUFBASE : nat := 320.

(** The team executing the [omp parallel] region.  A worker is described by
    the iterations [(ib, strk)] of the work-shared loop it receives; the
    order of the list is the order in which the workers enter the critical
    section.  [serial] is the team of one thread. *)
Definition worker : Type := nat → nat → bool.
Definition serial : list worker := [fun _ _ => true].

(** Two threads that share the alpha strings by parity. *)
Definition two_workers : list worker :=
  [fun _ strk => Nat.even strk; fun _ strk => Nat.odd strk].

Section Driver.
Context {F : Type} `{Scalar F}.

(** The mirroring loops at the end of the driver and of the symmetric
    direct routines:
    [for (i = 0; i < n; i++) for (j = 0; j < i; j++) m[j*n+i] = m[i*n+j];] *)
Definition symmetrize (n : nat) (m : list F) : list F :=
  for_ n (fun i m => for_ i (fun j m => <[j * n + i := ld m (i * n + j)]> m) m) m.

(** The number of rounds of [for (ib = 0; ib < nb; ib += bufbase)]. *)
Definition nblocks (nb bufbase : nat) : nat :=
  if decide (bufbase = 0) then 0 else (nb + bufbase - 1) / bufbase.

(** The private accumulators of one worker once it leaves the block loop. *)
Definition drv_worker (dm12kernel : kernel_t) (takes : worker)
    (bra ket : list F) (norb na nb nlinka nlinkb : nat)
    (clinka clinkb : list LinkT) : list F * list F :=
  let nnorb := norb * norb in
  let bufbase := Nat.min BUFBASE nb in
  let pdm1 := memset0 (malloc nnorb) 0 nnorb in
  let pdm2 := memset0 (malloc (nnorb * nnorb)) 0 (nnorb * nnorb) in
  for_ (nblocks nb bufbase) (fun blk p =>
    let ib := blk * bufbase in
    let blen := Nat.min bufbase (nb - ib) in
    for_ na (fun strk p =>
      if takes ib strk then
        dm12kernel p.1 p.2 bra ket blen strk ib
                   norb na nb nlinka nlinkb clinka clinkb
      else p) p) (pdm1, pdm2).

(** [FCIrdm12_drv].  [rdm1] and [rdm2] are the caller's buffers of [nnorb]
    and [nnorb * nnorb] cells; the driver clears them first, so they are
    results only. *)
Definition FCIrdm12_drv (dm12kernel : kernel_t) (team : list worker)
    (bra ket : list F) (norb na nb nlinka nlinkb : nat)
    (link_indexa link_indexb : list Z) (symm : Z) : list F * list F :=
  let nnorb := norb * norb in
  let rdm1 := memset0 (malloc nnorb) 0 nnorb in
  let rdm2 := memset0 (malloc (nnorb * nnorb)) 0 (nnorb * nnorb) in
  let clinka := compress_link (malloc_link (nlinka * na)) link_indexa norb na nlinka in
  let clinkb := compress_link (malloc_link (nlinkb * nb)) link_indexb norb nb nlinkb in
  let r :=
    fold_left (fun r takes =>
      let p := drv_worker dm12kernel takes bra ket norb na nb nlinka nlinkb
                 clinka clinkb in
      (for_ nnorb (fun i rdm1 => add_at rdm1 i (ld p.1 i)) r.1,
       for_ (nnorb * nnorb) (fun i rdm2 => add_at rdm2 i (ld p.2 i)) r.2))
      team (rdm1, rdm2) in
  if decide (symm ≠ 0%Z) then (symmetrize norb r.1, symmetrize nnorb r.2)
  else r.

Definition FCImake_rdm12_ms0 (team : list worker) (bra ket : list F)
    (norb na nlink : nat) (link_index : list Z) : list F * list F :=
  FCIrdm12_drv FCIrdm12kern_ms0 team ket ket norb na na nlink nlink
               link_index link_index 1.

Definition FCImake_rdm12_spin0 (team : list worker) (bra ket : list F)
    (norb na nlink : nat) (link_index : list Z) : list F * list F :=
  FCIrdm12_drv FCIrdm12kern_spin0 team ket ket norb na na nlink nlink
               link_index link_index 1.

Definition FCItrans_rdm12_ms0 (team : list worker) (bra ket : list F)
    (norb na nlink : nat) (link_index : list Z) : list F * list F :=
  FCIrdm12_drv FCItdm12kern_ms0 team bra ket norb na na nlink nlink
               link_index link_index 0.

(** ** Direct 1-RDM routines *)

Definition FCItrans_rdm1a (bra ket : list F) (norb na nb nlinka nlinkb : nat)
    (link_indexa link_indexb : list Z) : list F :=
  let clink := compress_link (malloc_link (nlinka * na)) link_indexa norb na nlinka in
  let rdm1 := memset0 (malloc (norb * norb)) 0 (norb * norb) in
  for_ na (fun str0 rdm1 =>
    for_ nlinka (fun j rdm1 =>
      let r := tab_at clink (str0 * nlinka + j) in
      let i := Z.to_nat (EXTRACT_I r) in
      let a := Z.to_nat (EXTRACT_A r) in
      let str1 := to_int (EXTRACT_ADDR r) in
      let sign := EXTRACT_SIGN r in
      for_ nb (fun k rdm1 =>
        add_at rdm1 (a * norb + i)
          (fmul (fmul (of_int sign)
                      (ldZ bra (str1 * Z.of_nat nb + Z.of_nat k)))
                (ld ket (str0 * nb + k)))) rdm1) rdm1) rdm1.

Definition FCItrans_rdm1b (bra ket : list F) (norb na nb nlinka nlinkb : nat)
    (link_indexa link_indexb : list Z) : list F :=
  let clink := compress_link (malloc_link (nlinkb * nb)) link_indexb norb nb nlinkb in
  let rdm1 := memset0 (malloc (norb * norb)) 0 (norb * norb) in
  for_ na (fun str0 rdm1 =>
    for_ nb (fun k rdm1 =>
      let tmp := ld ket (str0 * nb + k) in
      for_ nlinkb (fun j rdm1 =>
        let r := tab_at clink (k * nlinkb + j) in
        let i := Z.to_nat (EXTRACT_I r) in
        let a := Z.to_nat (EXTRACT_A r) in
        let str1 := to_int (EXTRACT_ADDR r) in
        let sign := EXTRACT_SIGN r in
        add_at rdm1 (a * norb + i)
          (fmul (fmul (of_int sign) (ldZ bra (Z.of_nat (str0 * nb) + str1))) tmp))
        rdm1) rdm1) rdm1.

(** [FCImake_rdm1a]: only the records with [a >= i] contribute; the mirror
    loops then fill the other triangle. *)
Definition FCImake_rdm1a (cibra ciket : list F) (norb na nb nlinka nlinkb : nat)
    (link_indexa link_indexb : list Z) : list F :=
  let ci0 := ciket in
  let clink := compress_link (malloc_link (nlinka * na)) link_indexa norb na nlinka in
  let rdm1 := memset0 (malloc (norb * norb)) 0 (norb * norb) in
  let rdm1 :=
    for_ na (fun str0 rdm1 =>
      for_ nlinka (fun j rdm1 =>
        let r := tab_at clink (str0 * nlinka + j) in
        let i := Z.to_nat (EXTRACT_I r) in
        let a := Z.to_nat (EXTRACT_A r) in
        let str1 := to_int (EXTRACT_ADDR r) in
        let sign := EXTRACT_SIGN r in
        let pci0 k := ld ci0 (str0 * nb + k) in
        let pci1 k := ldZ ci0 (str1 * Z.of_nat nb + Z.of_nat k) in
        if decide (i ≤ a) then
          if decide (sign > 0)%Z then
            for_ nb (fun k rdm1 =>
              add_at rdm1 (a * norb + i) (fmul (pci0 k) (pci1 k))) rdm1
          else
            for_ nb (fun k rdm1 =>
              sub_at rdm1 (a * norb + i) (fmul (pci0 k) (pci1 k))) rdm1
        else rdm1) rdm1) rdm1 in
  symmetrize norb rdm1.

Definition FCImake_rdm1b (cibra ciket : list F) (norb na nb nlinka nlinkb : nat)
    (link_indexa link_indexb : list Z) : list F :=
  let ci0 := ciket in
  let clink := compress_link (malloc_link (nlinkb * nb)) link_indexb norb nb nlinkb in
  let rdm1 := memset0 (malloc (norb * norb)) 0 (norb * norb) in
  let rdm1 :=
    for_ na (fun str0 rdm1 =>
      for_ nb (fun k rdm1 =>
        let tmp := ld ci0 (str0 * nb + k) in
        for_ nlinkb (fun j rdm1 =>
          let r := tab_at clink (k * nlinkb + j) in
          let i := Z.to_nat (EXTRACT_I r) in
          let a := Z.to_nat (EXTRACT_A r) in
          let str1 := to_int (EXTRACT_ADDR r) in
          let sign := EXTRACT_SIGN r in
          let pci0 := ldZ ci0 (Z.of_nat (str0 * nb) + str1) in
          if decide (i ≤ a) then
            if decide (sign > 0)%Z then add_at rdm1 (a * norb + i) (fmul pci0 tmp)
            else sub_at rdm1 (a * norb + i) (fmul pci0 tmp)
          else rdm1) rdm1) rdm1) rdm1 in
  symmetrize norb rdm1.

End Driver.

(** ** The two-orbital system of the worked scenario *)

(** One electron in two orbitals: string 0 occupies orbital 0, string 1
    orbital 1.  Each string has the identity record [(a, i) = (p, p)] with
    sign [+1] and the record moving its electron to the other orbital,
    entered with sign [-1]. *)
Definition link2 : list Z :=
  [0; 0; 0; 1;   1; 0; 1; -1;
   1; 1; 1; 1;   0; 1; 0; -1]%Z.

Definition f64 (z : Z) : float := float_of_int z.

(** Entry [n] of quadruple [j] of string [k] in a raw link table with
    [nlink] quadruples per string. *)
Definition raw_field (link_index : list Z) (nlink k j n : nat) : Z :=
  ldi link_index ((k * nlink + j) * 4 + n).

(** The single determinant [ci = [1,0,0,0]] and the two-determinant state
    [ci = [0,1,-1,0]] of that system, in double precision. *)
Definition ket_single : list float := f64 <$> [1; 0; 0; 0]%Z.
Definition ket_pair : list float := f64 <$> [0; 1; -1; 0]%Z.

(** Every table of two records per string over two orbitals and two
    strings, the first record of a string with sign [+1] and the second with
    sign [-1]: the readings of the hand-built table, [link2] among them. *)
Definition link2_records : list (list Z) :=
  a ← [0; 1]%Z; i ← [0; 1]%Z; str1 ← [0; 1]%Z; [[a; i; str1]].
Definition link2_family : list (list Z) :=
  r1 ← link2_records; r2 ← link2_records;
  r3 ← link2_records; r4 ← link2_records;
  [r1 ++ [1%Z] ++ r2 ++ [(-1)%Z] ++ r3 ++ [1%Z] ++ r4 ++ [(-1)%Z]].

(** Equality of two vectors of doubles, cell by cell ([==] of C). *)
Definition vec_eqb (u v : list float) : bool :=
  bool_decide (length u = length v) &&
  forallb (fun p => PrimFloat.eqb p.1 p.2) (zip u v).

(** The compacted [link2], and the state [ci = [1e-14,0,0,0]]. *)
Definition clink2 : list LinkT := compress_link (malloc_link 4) link2 2 2 2.
Definition ket_tiny : list float :=
  [0x1.6849b86a12b9bp-47; 0; 0; 0]%float.

Section Spin0Block.
Context {F : Type} `{Scalar F}.

(** The columns of T1 a call of [FCIrdm12kern_spin0] with
    [strb_id <= stra_id] builds, both branches of its [if] at once:
    [spin0_fill0] columns lie strictly below the diagonal of the pair space
    and receive the beta and the alpha pass; when the block reaches the
    string [strb = stra_id], one more column, [spin0_fill1] in all, receives
    the alpha pass alone. *)
Definition spin0_fill0 (fillcnt stra_id strb_id : nat) : nat :=
  Nat.min fillcnt (stra_id - strb_id).
Definition spin0_fill1 (fillcnt stra_id strb_id : nat) : nat :=
  if decide (stra_id ≤ strb_id + fillcnt)
  then spin0_fill0 fillcnt stra_id strb_id + 1
  else spin0_fill0 fillcnt stra_id strb_id.

Definition spin0_t1 (ket : list F) (fillcnt stra_id strb_id norb na nlinka : nat)
    (clink_indexa : list LinkT) : list F * F :=
  let nnorb := norb * norb in
  let b := rdm2_0b_t1 ket (malloc (nnorb * na))
             (spin0_fill0 fillcnt stra_id strb_id) stra_id norb na nlinka
             clink_indexa (strb_id * nlinka) in
  let a := rdm2_a_t1 ket strb_id b.1 (spin0_fill1 fillcnt stra_id strb_id)
             stra_id norb na nlinka clink_indexa in
  (a.1, fadd b.2 a.2).

End Spin0Block.

(** ** Trace, norm and valid link tables *)

Section Trace.
Context {F : Type} `{Scalar F}.

(** [sumf n f] is [f 0 + ... + f (n-1)], summed from the left. *)
Definition sumf (n : nat) (f : nat → F) : F :=
  for_ n (fun p s => fadd s (f p)) D0.

Definition trace (norb : nat) (rdm1 : list F) : F :=
  sumf norb (fun p => ld rdm1 (p * norb + p)).

(** The squared Euclidean norm of a coefficient vector. *)
Definition norm2 (ci : list F) : F :=
  sumf (length ci) (fun k => fmul (ld ci k) (ld ci k)).

End Trace.

(** The number of records of string [k] with [a = i]. *)
Definition diag_count (link_index : list Z) (nlink k : nat) : nat :=
  length (filter (fun j => raw_field link_index nlink k j 0
                           = raw_field link_index nlink k j 1) (seq 0 nlink)).

(** A raw table of single excitations of [nstr] strings of [N] electrons in
    [norb] orbitals, as far as the trace needs it: orbitals and destinations
    are in range (and fit the record), signs are [+1] or [-1], and the
    records of a string with [a = i] are [N] in number, each leading back to
    the string itself with sign [+1]. *)
Definition valid_links (link_index : list Z) (norb nstr nlink N : nat) : Prop :=
  norb ≤ 2 ^ 8 ∧ (Z.of_nat nstr ≤ 2 ^ 31)%Z ∧
  ∀ k, k < nstr →
    diag_count link_index nlink k = N ∧
    ∀ j, j < nlink →
      (0 ≤ raw_field link_index nlink k j 0 < Z.of_nat norb)%Z ∧
      (0 ≤ raw_field link_index nlink k j 1 < Z.of_nat norb)%Z ∧
      (0 ≤ raw_field link_index nlink k j 2 < Z.of_nat nstr)%Z ∧
      (raw_field link_index nlink k j 3 = 1%Z ∨
       raw_field link_index nlink k j 3 = (-1)%Z) ∧
      (raw_field link_index nlink k j 0 = raw_field link_index nlink k j 1 →
       raw_field link_index nlink k j 2 = Z.of_nat k ∧
       raw_field link_index nlink k j 3 = 1%Z).

(** The normalised state [ci = [3/5, 0, 0, 4/5]] in exact arithmetic. *)
Definition ket_35_45 : list Qc :=
  [Q2Qc (3 # 5); Q2Qc 0; Q2Qc 0; Q2Qc (4 # 5)].

(** ** Element-wise view of the rank-k updates *)

Section RankUpdate.
Context {F : Type} `{Scalar F}.

(** [acc_sum k init f] is [init + f 0 + ... + f (k-1)], summed from the
    left. *)
Definition acc_sum (k : nat) (init : F) (f : nat → F) : F :=
  for_ k (fun l s => fadd s (f l)) init.

(** The loop nest of which [dgemm] and [dsyrk] are instances: column [j] of
    [C] is updated in its first [rows j] cells. *)
Definition rank_update (rows : nat → nat) (m n k : nat) (alpha : F)
    (A B : list F) (C : list F) : list F :=
  for_ n (fun j C =>
    for_ k (fun l C =>
      let temp := fmul alpha (ld B (j + l * n)) in
      for_ (rows j) (fun i C => add_at C (i + j * m) (fmul temp (ld A (i + l * m)))) C)
      C) C.

(** [g] is a matrix accumulated on the cells [i + j * n], [i <= j], only,
    and [t] a symmetric matrix that agrees with it on these cells. *)
Definition upper_agree (n : nat) (g t : list F) : Prop :=
  length g = n * n ∧ length t = n * n ∧
  (∀ i j, i ≤ j → j < n → ld g (i + j * n) = ld t (i + j * n)) ∧
  (∀ i j, i < n → j < n → ld t (i + j * n) = ld t (j + i * n)).

(** On every block the driver hands to the ms=0 kernels exactly one of the
    tests [csum > CSUMTHR] and [csum < CSUMTHR] holds: no block has a norm
    equal to the threshold. *)
Definition ms0_threshold_clear (ket : list F) (norb na nlink : nat)
    (clink : list LinkT) : Prop :=
  ∀ blk strk, blk < nblocks na (Nat.min BUFBASE na) → strk < na →
    let ib := blk * Nat.min BUFBASE na in
    let blen := Nat.min (Nat.min BUFBASE na) (na - ib) in
    let csum := (kern_ms0_ab ket (malloc (norb * norb * blen)) blen strk ib
                   norb na nlink clink).2 in
    fltb CSUMTHR csum = negb (fltb csum CSUMTHR).

End RankUpdate.

(** A table in which string 0 is linked to string 1 but not back, and an
    integer-valued state. *)
Definition link2_oneway : list Z :=
  [0; 0; 0; 1;   1; 0; 1; 1;
   1; 1; 1; 1;   1; 1; 1; 1]%Z.
Definition ket_1234 : list float := f64 <$> [1; 2; 3; 4]%Z.

(** The records of a raw table, as far as the 1-RDM routines read them:
    orbitals lie below [norb] (and fit the record) and signs are [+1] or
    [-1]. *)
Definition signed_links (link_index : list Z) (norb nstr nlink : nat) : Prop :=
  norb ≤ 2 ^ 8 ∧
  ∀ k j, k < nstr → j < nlink →
    (0 ≤ raw_field link_index nlink k j 0 < Z.of_nat norb)%Z ∧
    (0 ≤ raw_field link_index nlink k j 1 < Z.of_nat norb)%Z ∧
    (raw_field link_index nlink k j 3 = 1%Z ∨
     raw_field link_index nlink k j 3 = (-1)%Z).

(** Two [n] by [n] row-major matrices with the same diagonal and the same
    cells [(a, i)], [i < a], below it. *)
Definition low_agree {F : Type} `{Scalar F} (n : nat) (m t : list F) : Prop :=
  length m = n * n ∧ length t = n * n ∧
  ∀ a i, i ≤ a → a < n → ld m (a * n + i) = ld t (a * n + i).

(** On every block the driver hands to the alpha-only kernels, and to the
    beta-only kernels, exactly one of the tests [csum > CSUMTHR] and
    [csum < CSUMTHR] holds. *)
Definition alpha_threshold_clear {F : Type} `{Scalar F} (ket : list F)
    (norb na nb nlinka : nat) (clinka : list LinkT) : Prop :=
  ∀ blk strk, blk < nblocks nb (Nat.min BUFBASE nb) → strk < na →
    let ib := blk * Nat.min BUFBASE nb in
    let blen := Nat.min (Nat.min BUFBASE nb) (nb - ib) in
    let buf := memset0 (malloc (norb * norb * blen)) 0 (norb * norb * blen) in
    let csum := (rdm2_a_t1 ket ib buf blen strk norb nb nlinka clinka).2 in
    fltb CSUMTHR csum = negb (fltb csum CSUMTHR).

Definition beta_threshold_clear {F : Type} `{Scalar F} (ket : list F)
    (norb na nb nlinkb : nat) (clinkb : list LinkT) : Prop :=
  ∀ blk strk, blk < nblocks nb (Nat.min BUFBASE nb) → strk < na →
    let ib := blk * Nat.min BUFBASE nb in
    let blen := Nat.min (Nat.min BUFBASE nb) (nb - ib) in
    let csum := (rdm2_0b_t1 ket (malloc (norb * norb * blen)) blen strk
                   norb nb nlinkb clinkb (ib * nlinkb)).2 in
    fltb CSUMTHR csum = negb (fltb csum CSUMTHR).

(** ** The diagonal of the 1-RDM, as the routines accumulate it *)

Section Diagonal.
Context {F : Type} `{Scalar F}.

(** The running sum that [FCImake_rdm1a] leaves in the cell [(p, p)]: in the
    order of its loops over the strings [str0], their records [j] and the
    beta strings [k], one square [ci[str0*nb+k]^2] for each record of [str0]
    with [a = i = p], each added to the sum so far. *)
Definition rdm1a_diag (ci : list F) (na nb nlinka : nat) (link_indexa : list Z)
    (p : nat) : F :=
  for_ na (fun str0 acc =>
    for_ nlinka (fun j acc =>
      if decide (raw_field link_indexa nlinka str0 j 0 = Z.of_nat p ∧
                 raw_field link_indexa nlinka str0 j 1 = Z.of_nat p)
      then for_ nb (fun k acc =>
             fadd acc (fmul (ld ci (str0 * nb + k)) (ld ci (str0 * nb + k)))) acc
      else acc) acc) D0.

(** The same for [FCImake_rdm1b], whose loops run over the alpha strings
    [str0], the beta strings [k] and the records [j] of [k]. *)
Definition rdm1b_diag (ci : list F) (na nb nlinkb : nat) (link_indexb : list Z)
    (p : nat) : F :=
  for_ na (fun str0 acc =>
    for_ nb (fun k acc =>
      for_ nlinkb (fun j acc =>
        if decide (raw_field link_indexb nlinkb k j 0 = Z.of_nat p ∧
                   raw_field link_indexb nlinkb k j 1 = Z.of_nat p)
        then fadd acc (fmul (ld ci (str0 * nb + k)) (ld ci (str0 * nb + k)))
        else acc) acc) acc) D0.

End Diagonal.

(** The doubles nearest to [0.08, 0.4, 0.44, 0.8]: a state whose squared
    norm, summed in double precision, is exactly 1. *)
Definition ket_unit64 : list float :=
  [0x1.47ae147ae147bp-4; 0x1.999999999999ap-2;
   0x1.c28f5c28f5c29p-2; 0x1.999999999999ap-1]%float.

(** * Properties *)

(** ** Loops *)

Lemma for_0 {S : Type} (body : nat → S → S) (s : S) : for_ 0 body s = s.
Proof. reflexivity. Qed.

Lemma for_S {S : Type} (n : nat) (body : nat → S → S) (s : S) :
  for_ (Datatypes.S n) body s = body n (for_ n body s).
Proof. unfold for_. rewrite seq_S, fold_left_app. reflexivity. Qed.

(** The invariant rule of a counted loop. *)
Lemma for_ind {S : Type} (P : nat → S → Prop) (n : nat)
    (body : nat → S → S) (s : S) :
  P 0 s →
  (∀ k s, k < n → P k s → P (Datatypes.S k) (body k s)) →
  P n (for_ n body s).
Proof.
  intros H0 Hstep.
  assert (G : ∀ m, m ≤ n → P m (for_ m body s)).
  { induction m as [|m IH]; intros Hm; [exact H0|].
    rewrite for_S. apply Hstep; [lia|]. apply IH. lia. }
  apply G. lia.
Qed.

Lemma for_ext {S : Type} (n : nat) (f g : nat → S → S) (s : S) :
  (∀ k s, k < n → f k s = g k s) → for_ n f s = for_ n g s.
Proof.
  intros E. induction n as [|n IH]; [reflexivity|].
  rewrite !for_S, IH by (intros; apply E; lia). apply E. lia.
Qed.

(** [loop_inv Q] establishes the invariant [Q] for a loop of the goal: it
    leaves the initial case, the preservation step, and the goal with
    [Q n (for_ n body s)] among the hypotheses. *)
Ltac loop_inv Q :=
  match goal with
  | |- context [for_ ?n ?body ?s] =>
      let HI := fresh "HI" in
      assert (HI : Q n (for_ n body s)); [apply (for_ind Q) | ]
  end.

(** Two runs of loops whose states stay related end in related states. *)
Lemma for_rel {S T : Type} (R : nat → S → T → Prop) (n : nat)
    (f : nat → S → S) (g : nat → T → T) (s : S) (t : T) :
  R 0 s t →
  (∀ k s t, k < n → R k s t → R (Datatypes.S k) (f k s) (g k t)) →
  R n (for_ n f s) (for_ n g t).
Proof.
  intros H0 Hstep.
  assert (G : ∀ m, m ≤ n → R m (for_ m f s) (for_ m g t)).
  { induction m as [|m IH]; intros Hm; [exact H0|].
    rewrite !for_S. apply Hstep; [lia|]. apply IH. lia. }
  apply G. lia.
Qed.

(** ** The link-table compactor *)

Lemma tab_at_insert_eq (clink : list LinkT) (n : nat) (r : LinkT) :
  n < length clink → tab_at (<[n := r]> clink) n = r.
Proof. intros Hn. unfold tab_at. rewrite list_lookup_insert_eq; done. Qed.

Lemma tab_at_insert_ne (clink : list LinkT) (n m : nat) (r : LinkT) :
  n ≠ m → tab_at (<[n := r]> clink) m = tab_at clink m.
Proof. intros Hn. unfold tab_at. rewrite list_lookup_insert_ne; done. Qed.

Lemma compress_link_length clink link_index norb nstr nlink :
  length (compress_link clink link_index norb nstr nlink) = length clink.
Proof.
  unfold compress_link.
  apply (for_ind (fun _ c => length c = length clink)); [done|].
  intros k c _ Hc.
  apply (for_ind (fun _ c => length c = length clink)); [done|].
  intros j c' _ Hc'. by rewrite length_insert.
Qed.

(** Record [k * nlink + j] of the result is the stored form of quadruple
    [j] of string [k]; the records past [nstr * nlink] keep their value. *)
Lemma compress_link_at clink link_index norb nstr nlink p :
  nstr * nlink ≤ length clink →
  tab_at (compress_link clink link_index norb nstr nlink) p =
    if decide (p < nstr * nlink) then
      store_link (ldi link_index (p * 4 + 0)) (ldi link_index (p * 4 + 1))
                 (ldi link_index (p * 4 + 2)) (ldi link_index (p * 4 + 3))
    else tab_at clink p.
Proof.
  intros Hlen. unfold compress_link.
  set (Q := fun (m : nat) (c : list LinkT) => length c = length clink ∧
    tab_at c p =
      if decide (p < m) then
        store_link (ldi link_index (p * 4 + 0)) (ldi link_index (p * 4 + 1))
                   (ldi link_index (p * 4 + 2)) (ldi link_index (p * 4 + 3))
      else tab_at clink p).
  match goal with |- tab_at ?c p = _ => cut (Q (nstr * nlink) c) end.
  { intros [_ ->]. done. }
  apply (for_ind (fun k c => Q (k * nlink) c)).
  - split; [done|]. rewrite decide_False by lia. done.
  - intros k c Hk HQ.
    cut (Q (k * nlink + nlink) (for_ nlink (λ j c0,
          <[k * nlink + j := store_link
              (ldi link_index (k * (nlink * 4) + (j * 4 + 0)))
              (ldi link_index (k * (nlink * 4) + (j * 4 + 1)))
              (ldi link_index (k * (nlink * 4) + (j * 4 + 2)))
              (ldi link_index (k * (nlink * 4) + (j * 4 + 3)))]> c0) c)).
    { replace (Datatypes.S k * nlink) with (k * nlink + nlink) by lia. done. }
    apply (for_ind (fun j c => Q (k * nlink + j) c)).
    + replace (k * nlink + 0) with (k * nlink) by lia. done.
    + intros j c' Hj [Hc' Hp']. split; [by rewrite length_insert|].
      destruct (decide (p = k * nlink + j)) as [->|Hne].
      * rewrite tab_at_insert_eq by nia. rewrite decide_True by lia.
        f_equal; f_equal; lia.
      * rewrite tab_at_insert_ne by lia. rewrite Hp'.
        repeat case_decide; first [done|lia].
Qed.

Lemma lookup_tab_at (clink : list LinkT) (p : nat) :
  p < length clink → clink !! p = Some (tab_at clink p).
Proof.
  intros Hp. unfold tab_at.
  destruct (lookup_lt_is_Some_2 clink p Hp) as [r ->]. done.
Qed.

Lemma tab_at_ge (clink : list LinkT) (p : nat) :
  length clink ≤ p → tab_at clink p = LinkT0.
Proof. intros Hp. unfold tab_at. by rewrite lookup_ge_None_2. Qed.

(** The narrowing conversions are the identity exactly on the range of the
    field type. *)
Lemma to_uchar_id (z : Z) : to_uchar z = z ↔ (0 ≤ z < 2 ^ 8)%Z.
Proof.
  unfold to_uchar. split.
  - intros <-. apply Z.mod_pos_bound. lia.
  - intros Hz. apply Z.mod_small. done.
Qed.

Lemma to_uint_id (z : Z) : to_uint z = z ↔ (0 ≤ z < 2 ^ 32)%Z.
Proof.
  unfold to_uint. split.
  - intros <-. apply Z.mod_pos_bound. lia.
  - intros Hz. apply Z.mod_small. done.
Qed.

Lemma to_schar_range (z : Z) : (- 2 ^ 7 ≤ to_schar z < 2 ^ 7)%Z.
Proof.
  unfold to_schar.
  pose proof (Z.mod_pos_bound (z + 2 ^ 7) (2 ^ 8) ltac:(lia)). lia.
Qed.

Lemma to_schar_id (z : Z) : to_schar z = z ↔ (- 2 ^ 7 ≤ z < 2 ^ 7)%Z.
Proof.
  split.
  - intros <-. apply to_schar_range.
  - intros Hz. unfold to_schar. rewrite Z.mod_small by lia. lia.
Qed.

Lemma to_schar_mod (z : Z) : (to_schar z mod 2 ^ 8 = z mod 2 ^ 8)%Z.
Proof.
  unfold to_schar.
  rewrite Zminus_mod_idemp_l. f_equal. lia.
Qed.

(** The [unsigned int] field read back into an [int] is the [int] that was
    stored. *)
Lemma to_int_to_uint (z : Z) :
  (- 2 ^ 31 ≤ z < 2 ^ 31)%Z → to_int (to_uint z) = z.
Proof.
  intros Hz. unfold to_int, to_uint.
  rewrite Zplus_mod_idemp_l. rewrite Z.mod_small by lia. lia.
Qed.

(** C8: the compactor fills the first [nstr * nlink] records of the output,
    grouped by string: record [j] of the group of string [k] holds the four
    fields of input quadruple [j] of string [k] as the field types store
    them, which are the input values themselves whenever these fit the field
    types.  It leaves the rest of the output alone, and its result is a
    function of the first [4 * nstr * nlink] input entries only. *)
Theorem compress_link_spec clink link_index norb nstr nlink :
  nstr * nlink ≤ length clink →
  let out := compress_link clink link_index norb nstr nlink in
  length out = length clink ∧
  (∀ k j, k < nstr → j < nlink →
     out !! (k * nlink + j) =
       Some (store_link (raw_field link_index nlink k j 0)
                        (raw_field link_index nlink k j 1)
                        (raw_field link_index nlink k j 2)
                        (raw_field link_index nlink k j 3))) ∧
  (∀ k j, k < nstr → j < nlink →
     (0 ≤ raw_field link_index nlink k j 0 < 2 ^ 8 ∧
      0 ≤ raw_field link_index nlink k j 1 < 2 ^ 8 ∧
      0 ≤ raw_field link_index nlink k j 2 < 2 ^ 32 ∧
      - 2 ^ 7 ≤ raw_field link_index nlink k j 3 < 2 ^ 7)%Z →
     out !! (k * nlink + j) =
       Some {| EXTRACT_ADDR := raw_field link_index nlink k j 2;
               EXTRACT_A := raw_field link_index nlink k j 0;
               EXTRACT_I := raw_field link_index nlink k j 1;
               EXTRACT_SIGN := raw_field link_index nlink k j 3 |}) ∧
  (∀ p, nstr * nlink ≤ p → out !! p = clink !! p) ∧
  (∀ clink' link_index' norb',
     length clink' = length clink →
     (∀ n, n < nstr * nlink * 4 → link_index' !! n = link_index !! n) →
     (∀ p, nstr * nlink ≤ p → clink' !! p = clink !! p) →
     compress_link clink' link_index' norb' nstr nlink = out).
Proof.
  intros Hlen out.
  assert (Hout : length out = length clink) by apply compress_link_length.
  assert (Hrec : ∀ k j, k < nstr → j < nlink →
     out !! (k * nlink + j) =
       Some (store_link (raw_field link_index nlink k j 0)
                        (raw_field link_index nlink k j 1)
                        (raw_field link_index nlink k j 2)
                        (raw_field link_index nlink k j 3))).
  { intros k j Hk Hj. rewrite lookup_tab_at by (rewrite Hout; nia).
    unfold out. rewrite compress_link_at by done.
    rewrite decide_True by nia. done. }
  assert (Htail : ∀ p, nstr * nlink ≤ p → out !! p = clink !! p).
  { intros p Hp. destruct (decide (p < length clink)) as [Hlt|Hge].
    - rewrite !lookup_tab_at by lia. unfold out.
      rewrite compress_link_at by done. rewrite decide_False by lia. done.
    - rewrite !lookup_ge_None_2 by lia. done. }
  split_and!; try done.
  - intros k j Hk Hj (Ha & Hi & Hs & Hg). rewrite Hrec by done.
    unfold store_link. f_equal.
    apply to_uchar_id in Ha, Hi. apply to_uint_id in Hs. apply to_schar_id in Hg.
    by rewrite Ha, Hi, Hs, Hg.
  - intros clink' link_index' norb' Hlen' Hin Hcl.
    apply list_eq. intros p.
    destruct (decide (p < length clink)) as [Hlt|Hge].
    + rewrite !lookup_tab_at by (rewrite ?compress_link_length; lia).
      f_equal. unfold out. rewrite !compress_link_at by lia.
      case_decide as Hp.
      * unfold raw_field, ldi. rewrite !Hin by lia. done.
      * specialize (Hcl p ltac:(lia)). rewrite !lookup_tab_at in Hcl by lia.
        congruence.
    + rewrite !lookup_ge_None_2; rewrite ?compress_link_length; first [done|lia].
Qed.

Lemma compress_link_spec_witness :
  2 * 2 ≤ length (malloc_link 4) ∧
  compress_link (malloc_link 4) link2 2 2 2 !! (1 * 2 + 1) =
    Some (mkLinkT 0 0 1 (-1)).
Proof.
  split; [vm_compute; lia|].
  pose proof (compress_link_spec (malloc_link 4) link2 2 2 2
                ltac:(vm_compute; lia)) as (_ & Hrec & _).
  exact (Hrec 1 1 ltac:(lia) ltac:(lia)).
Defined.

(** C10: a record stores the orbital indices modulo [2^8], the destination
    modulo [2^32] and the sign as the signed byte congruent to it modulo
    [2^8]; the four stored fields are the four input values if and only if
    each input value lies in the range of its field.  The compactor is
    total: no input makes it fail. *)
Theorem compress_link_fields clink link_index norb nstr nlink k j :
  nstr * nlink ≤ length clink → k < nstr → j < nlink →
  let r := tab_at (compress_link clink link_index norb nstr nlink)
                  (k * nlink + j) in
  let a := raw_field link_index nlink k j 0 in
  let i := raw_field link_index nlink k j 1 in
  let str1 := raw_field link_index nlink k j 2 in
  let sign := raw_field link_index nlink k j 3 in
  (EXTRACT_A r = a mod 2 ^ 8 ∧ EXTRACT_I r = i mod 2 ^ 8 ∧
   EXTRACT_ADDR r = str1 mod 2 ^ 32 ∧
   EXTRACT_SIGN r mod 2 ^ 8 = sign mod 2 ^ 8 ∧
   - 2 ^ 7 ≤ EXTRACT_SIGN r < 2 ^ 7)%Z ∧
  ((EXTRACT_A r = a ∧ EXTRACT_I r = i ∧
    EXTRACT_ADDR r = str1 ∧ EXTRACT_SIGN r = sign) ↔
   (0 ≤ a < 2 ^ 8 ∧ 0 ≤ i < 2 ^ 8 ∧
    0 ≤ str1 < 2 ^ 32 ∧ - 2 ^ 7 ≤ sign < 2 ^ 7)%Z).
Proof.
  intros Hlen Hk Hj r a i str1 sign.
  assert (Hr : r = store_link a i str1 sign).
  { unfold r. rewrite compress_link_at by done. rewrite decide_True by nia. done. }
  rewrite Hr. simpl. split.
  - split_and!; try done; [apply to_schar_mod|apply to_schar_range..].
  - rewrite <- (to_uchar_id a), <- (to_uchar_id i),
      <- (to_uint_id str1), <- (to_schar_id sign). done.
Qed.

Lemma compress_link_fields_witness :
  1 * 1 ≤ length (malloc_link 1) ∧
  EXTRACT_A (tab_at (compress_link (malloc_link 1) [300; 7; -1; 255]%Z 2 1 1) 0)
    = 44%Z ∧
  EXTRACT_ADDR (tab_at (compress_link (malloc_link 1) [300; 7; -1; 255]%Z 2 1 1) 0)
    = (2 ^ 32 - 1)%Z.
Proof.
  split; [vm_compute; lia|].
  pose proof (compress_link_fields (malloc_link 1) [300; 7; -1; 255]%Z 2 1 1 0 0
                ltac:(vm_compute; lia) ltac:(lia) ltac:(lia)) as [(Ha & _ & Hs & _) _].
  split; [exact Ha | exact Hs].
Defined.

(** ** Buffers *)

Lemma idx_inj (n r c r' c' : nat) :
  c < n → c' < n → r * n + c = r' * n + c' → r = r' ∧ c = c'.
Proof.
  intros Hc Hc' E.
  assert (r = r'); [|subst; lia].
  destruct (Nat.lt_trichotomy r r') as [Hlt|[Heq|Hgt]]; [|done|].
  - assert ((r + 1) * n ≤ r' * n) by (apply Nat.mul_le_mono_r; lia). lia.
  - assert ((r' + 1) * n ≤ r * n) by (apply Nat.mul_le_mono_r; lia). lia.
Qed.

Section BufferFacts.
Context {F : Type} `{Scalar F}.
Implicit Types (buf : list F) (x v : F).

Lemma lookup_ld buf p : p < length buf → buf !! p = Some (ld buf p).
Proof.
  intros Hp. unfold ld.
  destruct (lookup_lt_is_Some_2 buf p Hp) as [v ->]. done.
Qed.

Lemma ld_ge buf p : length buf ≤ p → ld buf p = D0.
Proof. intros Hp. unfold ld. by rewrite lookup_ge_None_2. Qed.

Lemma ld_insert_eq buf p v : p < length buf → ld (<[p := v]> buf) p = v.
Proof. intros Hp. unfold ld. by rewrite list_lookup_insert_eq. Qed.

Lemma ld_insert_ne buf p q v : p ≠ q → ld (<[p := v]> buf) q = ld buf q.
Proof. intros Hp. unfold ld. by rewrite list_lookup_insert_ne. Qed.

Lemma ld_ext buf buf' :
  length buf = length buf' → (∀ p, p < length buf → ld buf p = ld buf' p) →
  buf = buf'.
Proof.
  intros Hl E. apply list_eq. intros p.
  destruct (decide (p < length buf)).
  - rewrite !lookup_ld by lia. f_equal. by apply E.
  - rewrite !lookup_ge_None_2 by lia. done.
Qed.

Lemma length_add_at buf p x : length (add_at buf p x) = length buf.
Proof. apply length_insert. Qed.

Lemma length_sub_at buf p x : length (sub_at buf p x) = length buf.
Proof. apply length_insert. Qed.

Lemma ld_add_at_eq buf p x :
  p < length buf → ld (add_at buf p x) p = fadd (ld buf p) x.
Proof. apply ld_insert_eq. Qed.

Lemma ld_add_at_ne buf p q x : p ≠ q → ld (add_at buf p x) q = ld buf q.
Proof. apply ld_insert_ne. Qed.

Lemma ld_sub_at_eq buf p x :
  p < length buf → ld (sub_at buf p x) p = fsub (ld buf p) x.
Proof. apply ld_insert_eq. Qed.

Lemma ld_sub_at_ne buf p q x : p ≠ q → ld (sub_at buf p x) q = ld buf q.
Proof. apply ld_insert_ne. Qed.

Lemma length_malloc n : length (malloc (F:=F) n) = n.
Proof. apply length_replicate. Qed.

Lemma ld_malloc n p : ld (malloc n) p = D0.
Proof.
  unfold ld, malloc. destruct (decide (p < n)).
  - by rewrite lookup_replicate_2.
  - by rewrite lookup_ge_None_2 by (rewrite length_replicate; lia).
Qed.

Lemma memset0_spec buf off n :
  length (memset0 buf off n) = length buf ∧
  ∀ p, ld (memset0 buf off n) p =
         if decide (off ≤ p < off + n) then D0 else ld buf p.
Proof.
  unfold memset0.
  loop_inv (fun (k : nat) (b : list F) => length b = length buf ∧
    ∀ p, ld b p = if decide (off ≤ p < off + k) then D0 else ld buf p).
  - split; [done|]. intros p. rewrite decide_False by lia. done.
  - intros k b Hk [Hl Hb]. split; [by rewrite length_insert|].
    intros p. destruct (decide (p = off + k)) as [->|Hne].
    + rewrite decide_True by lia.
      destruct (decide (off + k < length b)).
      * by rewrite ld_insert_eq.
      * rewrite ld_ge; [done|]. rewrite length_insert. lia.
    + rewrite ld_insert_ne by lia. rewrite Hb.
      repeat case_decide; first [done|lia].
  - exact HI.
Qed.

Lemma length_memset0 buf off n : length (memset0 buf off n) = length buf.
Proof. apply memset0_spec. Qed.

Lemma ld_memset0 buf off n p :
  ld (memset0 buf off n) p = if decide (off ≤ p < off + n) then D0 else ld buf p.
Proof. apply memset0_spec. Qed.

(** A cleared scratch buffer is the scratch buffer. *)
Lemma memset0_malloc n : memset0 (malloc n) 0 n = malloc (F:=F) n.
Proof.
  apply ld_ext; [apply length_memset0|].
  intros p _. rewrite ld_memset0, ld_malloc. by case_decide.
Qed.

(** ** The mirroring pass *)

(** The pass keeps the row-major lower triangle and the diagonal, and
    overwrites each cell [(r, c)], [r < c], with the cell [(c, r)]. *)
Lemma symmetrize_spec (n : nat) (m : list F) :
  n * n ≤ length m →
  length (symmetrize n m) = length m ∧
  ∀ r c, r < n → c < n →
    ld (symmetrize n m) (r * n + c) =
      if decide (r < c) then ld m (c * n + r) else ld m (r * n + c).
Proof.
  intros Hlen. unfold symmetrize.
  set (Q := fun (i J : nat) (cur : list F) => length cur = length m ∧
    ∀ r c, r < n → c < n →
      ld cur (r * n + c) =
        if decide (r < c ∧ (c < i ∨ (c = i ∧ r < J)))
        then ld m (c * n + r) else ld m (r * n + c)).
  match goal with |- length ?s = _ ∧ _ => cut (Q n 0 s) end.
  { intros [Hl Hs]. split; [done|]. intros r c Hr Hc. rewrite Hs by done.
    repeat case_decide; first [done|lia]. }
  apply (for_ind (fun i cur => Q i 0 cur)).
  - split; [done|]. intros r c Hr Hc. rewrite decide_False by lia. done.
  - intros i cur Hi HQ.
    cut (Q i i (for_ i (λ j m0, <[j * n + i := ld m0 (i * n + j)]> m0) cur)).
    { intros [Hl Hs]. split; [done|]. intros r c Hr Hc. rewrite Hs by done.
      repeat case_decide; first [done|lia]. }
    apply (for_ind (fun j cur => Q i j cur)); [done|].
    intros j cur' Hj [Hl Hs]. split; [by rewrite length_insert|].
    intros r c Hr Hc.
    destruct (decide (r * n + c = j * n + i)) as [E|Hne].
    + apply idx_inj in E as [-> ->]; [|lia..].
      rewrite ld_insert_eq by nia.
      rewrite Hs by lia. rewrite decide_False by lia.
      rewrite decide_True by lia. done.
    + rewrite ld_insert_ne by lia. rewrite Hs by done.
      assert (¬ (r = j ∧ c = i)) by (intros [-> ->]; lia).
      repeat case_decide; first [done|lia].
Qed.

Lemma length_symmetrize n m : n * n ≤ length m → length (symmetrize n m) = length m.
Proof. intros Hl. by apply symmetrize_spec. Qed.

Lemma symmetrize_symmetric n m r c :
  n * n ≤ length m → r < n → c < n →
  ld (symmetrize n m) (r * n + c) = ld (symmetrize n m) (c * n + r).
Proof.
  intros Hl Hr Hc. destruct (symmetrize_spec n m Hl) as [_ Hs].
  rewrite !Hs by done.
  destruct (decide (r = c)) as [->|]; [done|].
  repeat case_decide; first [done|lia].
Qed.

(** ** The driver *)

Lemma length_reduce n (p acc : list F) :
  length (for_ n (fun i acc => add_at acc i (ld p i)) acc) = length acc.
Proof.
  apply (for_ind (fun _ a => length a = length acc)); [done|].
  intros k a _ Ha. by rewrite length_add_at.
Qed.

(** The rounds of the block loop are the values [ib = 0, bufbase, ...]
    below [nb]. *)
Lemma nblocks_spec nb bufbase blk :
  0 < bufbase → blk < nblocks nb bufbase ↔ blk * bufbase < nb.
Proof.
  intros Hb. unfold nblocks. rewrite decide_False by lia.
  pose proof (Nat.div_mod_eq (nb + bufbase - 1) bufbase) as Hdm.
  pose proof (Nat.mod_upper_bound (nb + bufbase - 1) bufbase ltac:(lia)) as Hm.
  split; intros Hlt; nia.
Qed.

Lemma nblocks_0 bufbase : nblocks 0 bufbase = 0.
Proof.
  unfold nblocks. case_decide; [done|].
  apply Nat.div_small. lia.
Qed.

(** The accumulated matrices before the mirroring pass have [nnorb] and
    [nnorb * nnorb] cells whatever the kernel does. *)
Lemma drv_lengths (dm12kernel : kernel_t) team bra ket norb na nb nlinka nlinkb
    link_indexa link_indexb :
  let r := FCIrdm12_drv dm12kernel team bra ket norb na nb nlinka nlinkb
             link_indexa link_indexb 0 in
  length r.1 = norb * norb ∧ length r.2 = norb * norb * (norb * norb).
Proof.
  unfold FCIrdm12_drv. rewrite decide_False by (intros ?; done).
  match goal with |- context [fold_left ?f team ?init] =>
    set (step := f); set (r0 := init) end.
  assert (H0 : length r0.1 = norb * norb ∧ length r0.2 = norb * norb * (norb * norb)).
  { unfold r0. simpl. by rewrite !length_memset0, !length_malloc. }
  clearbody r0. revert r0 H0.
  induction team as [|w team IH]; intros r0 H0; [done|].
  simpl. apply IH. unfold step. simpl. by rewrite !length_reduce.
Qed.

Lemma drv_symm (dm12kernel : kernel_t) team bra ket norb na nb nlinka nlinkb
    link_indexa link_indexb symm :
  symm ≠ 0%Z →
  let acc := FCIrdm12_drv dm12kernel team bra ket norb na nb nlinka nlinkb
               link_indexa link_indexb 0 in
  FCIrdm12_drv dm12kernel team bra ket norb na nb nlinka nlinkb
               link_indexa link_indexb symm
  = (symmetrize norb acc.1, symmetrize (norb * norb) acc.2).
Proof.
  intros Hs. unfold FCIrdm12_drv.
  rewrite (decide_True _ _ Hs). rewrite decide_False by (intros ?; done). done.
Qed.

End BufferFacts.

Lemma neq_by {A : Type} (f : A → bool) (x y : A) : f x ≠ f y → x ≠ y.
Proof. congruence. Qed.

(** ** Symmetry of the driver's results *)

(** C2: with [symm] nonzero the driver returns a symmetric [rdm1] and a
    symmetric [rdm2], whatever kernel and team it runs. *)
Theorem drv_symmetric {F : Type} `{Scalar F} (dm12kernel : kernel_t)
    team bra ket norb na nb nlinka nlinkb link_indexa link_indexb symm :
  symm ≠ 0%Z →
  let r := FCIrdm12_drv dm12kernel team bra ket norb na nb nlinka nlinkb
             link_indexa link_indexb symm in
  let nnorb := norb * norb in
  (length r.1 = nnorb ∧
   ∀ i j, i < norb → j < norb → r.1 !! (i * norb + j) = r.1 !! (j * norb + i)) ∧
  (length r.2 = nnorb * nnorb ∧
   ∀ p q, p < nnorb → q < nnorb → r.2 !! (p * nnorb + q) = r.2 !! (q * nnorb + p)).
Proof.
  intros Hs r nnorb. unfold r. rewrite drv_symm by done. simpl.
  destruct (drv_lengths dm12kernel team bra ket norb na nb nlinka nlinkb
              link_indexa link_indexb) as [L1 L2]. simpl in L1, L2.
  split; (split; [rewrite length_symmetrize; [done|lia]|]).
  - intros i j Hi Hj.
    rewrite !lookup_ld by (rewrite length_symmetrize; nia).
    f_equal. apply symmetrize_symmetric; [lia|done..].
  - intros p q Hp Hq.
    rewrite !lookup_ld by (rewrite length_symmetrize; unfold nnorb in *; nia).
    f_equal. apply symmetrize_symmetric; [lia|done..].
Qed.

Lemma drv_symmetric_witness :
  (1 ≠ 0)%Z ∧
  let r := FCIrdm12_drv FCIrdm12kern_ms0 serial ket_pair ket_pair 2 2 2 2 2
             link2 link2 1 in
  r.2 !! (0 * (2 * 2) + 3) = r.2 !! (3 * (2 * 2) + 0).
Proof.
  split; [lia|]. intros r.
  apply (drv_symmetric FCIrdm12kern_ms0 serial ket_pair ket_pair 2 2 2 2 2
           link2 link2 1 ltac:(lia)); lia.
Defined.

(** C3, as the code has it: the mirroring pass keeps the row-major lower
    triangle (and the diagonal) of the accumulated [rdm1] and [rdm2] and
    copies it over the upper triangle. *)
Theorem drv_mirrors_lower {F : Type} `{Scalar F} (dm12kernel : kernel_t)
    team bra ket norb na nb nlinka nlinkb link_indexa link_indexb symm :
  symm ≠ 0%Z →
  let acc := FCIrdm12_drv dm12kernel team bra ket norb na nb nlinka nlinkb
               link_indexa link_indexb 0 in
  let out := FCIrdm12_drv dm12kernel team bra ket norb na nb nlinka nlinkb
               link_indexa link_indexb symm in
  let nnorb := norb * norb in
  (∀ i j, j ≤ i → i < norb →
     out.1 !! (i * norb + j) = acc.1 !! (i * norb + j) ∧
     out.1 !! (j * norb + i) = acc.1 !! (i * norb + j)) ∧
  (∀ p q, q ≤ p → p < nnorb →
     out.2 !! (p * nnorb + q) = acc.2 !! (p * nnorb + q) ∧
     out.2 !! (q * nnorb + p) = acc.2 !! (p * nnorb + q)).
Proof.
  intros Hs acc out nnorb.
  assert (E : out = (symmetrize norb acc.1, symmetrize nnorb acc.2))
    by (apply drv_symm; done).
  assert (L : length acc.1 = norb * norb ∧ length acc.2 = nnorb * nnorb)
    by apply drv_lengths.
  destruct L as [L1 L2]. rewrite E. clearbody acc. clear E out. simpl.
  destruct (symmetrize_spec norb acc.1 ltac:(lia)) as [M1 S1].
  destruct (symmetrize_spec nnorb acc.2 ltac:(unfold nnorb; lia)) as [M2 S2].
  split.
  - intros i j Hj Hi.
    rewrite !lookup_ld by (rewrite ?M1, L1; nia).
    rewrite !S1 by lia. rewrite decide_False by lia.
    split; [done|]. case_decide; [done|].
    by replace j with i by lia.
  - intros p q Hq Hp.
    rewrite !lookup_ld by (rewrite ?M2, L2; unfold nnorb in *; nia).
    rewrite !S2 by lia. rewrite decide_False by lia.
    split; [done|]. case_decide; [done|].
    by replace q with p by lia.
Qed.

Lemma drv_mirrors_lower_witness :
  (1 ≠ 0)%Z ∧
  let acc := FCIrdm12_drv FCIrdm12kern_ms0 serial ket_pair ket_pair 2 2 2 2 2
               link2 link2 0 in
  let out := FCIrdm12_drv FCIrdm12kern_ms0 serial ket_pair ket_pair 2 2 2 2 2
               link2 link2 1 in
  out.2 !! (0 * (2 * 2) + 3) = acc.2 !! (3 * (2 * 2) + 0).
Proof.
  split; [lia|]. intros acc out.
  apply (drv_mirrors_lower FCIrdm12kern_ms0 serial ket_pair ket_pair 2 2 2 2 2
           link2 link2 1 ltac:(lia)); lia.
Defined.

(** C3, as stated, fails: on the two-determinant state the
    accumulated [rdm2] has 0 in cell [(0,3)] of the upper triangle and 2 in
    cell [(3,0)]; the pass does not keep the 0. *)
Lemma drv_upper_not_kept :
  let acc := FCIrdm12_drv FCIrdm12kern_ms0 serial ket_pair ket_pair 2 2 2 2 2
               link2 link2 0 in
  let out := FCIrdm12_drv FCIrdm12kern_ms0 serial ket_pair ket_pair 2 2 2 2 2
               link2 link2 1 in
  ¬ (∀ p q, p < q → q < 2 * 2 →
       out.2 !! (p * (2 * 2) + q) = acc.2 !! (p * (2 * 2) + q) ∧
       out.2 !! (q * (2 * 2) + p) = acc.2 !! (p * (2 * 2) + q)).
Proof.
  intros acc out Hc.
  destruct (Hc 0 3 ltac:(lia) ltac:(lia)) as [Hu _].
  revert Hu.
  apply (neq_by (fun o => match o with
                          | Some v => PrimFloat.eqb v 2
                          | None => false
                          end)).
  vm_compute. discriminate.
Qed.

(** ** The ground-state entry points and their [bra] argument *)

(** C9: the results of the ground-state builds do not depend on the [bra]
    (or [cibra]) argument. *)
Theorem ground_state_ignores_bra {F : Type} `{Scalar F}
    team (bra bra' ket : list F) norb na nb nlink nlinka nlinkb
    link_index link_indexa link_indexb :
  FCImake_rdm12_ms0 team bra ket norb na nlink link_index
    = FCImake_rdm12_ms0 team bra' ket norb na nlink link_index ∧
  FCImake_rdm12_spin0 team bra ket norb na nlink link_index
    = FCImake_rdm12_spin0 team bra' ket norb na nlink link_index ∧
  FCImake_rdm1a bra ket norb na nb nlinka nlinkb link_indexa link_indexb
    = FCImake_rdm1a bra' ket norb na nb nlinka nlinkb link_indexa link_indexb ∧
  FCImake_rdm1b bra ket norb na nb nlinka nlinkb link_indexa link_indexb
    = FCImake_rdm1b bra' ket norb na nb nlinka nlinkb link_indexa link_indexb.
Proof. done. Qed.

(** ** The worked scenario *)

(** C1, as the code has it: on the single determinant the ms=0 build sums
    the alpha and the beta contribution, so [rdm1 = [[2,0],[0,0]]], and
    [rdm2] is 4 at [(0,0,0,0)], 2 at [(1,0,1,0)] and zero elsewhere. *)
Theorem rdm12_ms0_single (bra : list float) :
  FCImake_rdm12_ms0 serial bra ket_single 2 2 2 link2 =
    (f64 <$> [2; 0; 0; 0]%Z,
     f64 <$> [4; 0; 0; 0;  0; 0; 0; 0;  0; 0; 2; 0;  0; 0; 0; 0]%Z).
Proof. vm_compute. reflexivity. Qed.

(** Two threads return the same matrices. *)
Lemma rdm12_ms0_single_two_workers :
  FCImake_rdm12_ms0 two_workers ket_single ket_single 2 2 2 link2 =
  FCImake_rdm12_ms0 serial ket_single ket_single 2 2 2 link2.
Proof. vm_compute. reflexivity. Qed.

(** C1, as stated, fails: [rdm1] is not [[1,0],[0,0]] and
    [rdm2] is not 1 at [(0,0,0,0)] and zero elsewhere. *)
Lemma rdm12_ms0_single_not_one :
  let r := FCImake_rdm12_ms0 serial ket_single ket_single 2 2 2 link2 in
  ¬ (r.1 = f64 <$> [1; 0; 0; 0]%Z ∧
     r.2 !! 0 = Some (f64 1) ∧ ∀ p, 0 < p < 16 → r.2 !! p = Some (f64 0)).
Proof.
  intros r [H1 _]. revert H1.
  apply (neq_by (fun l => match l with
                          | v :: _ => PrimFloat.eqb v 2
                          | [] => false
                          end)).
  vm_compute. discriminate.
Qed.

(** The same holds for every reading of the hand-built table: no table of
    the family makes [rdm1] equal to [[1,0],[0,0]]. *)
Lemma rdm12_ms0_single_any_table :
  link2 ∈ link2_family ∧
  forallb (fun link =>
    negb (vec_eqb (FCImake_rdm12_ms0 serial ket_single ket_single 2 2 2 link).1
                  (f64 <$> [1; 0; 0; 0]%Z))) link2_family = true.
Proof.
  split; [|vm_compute; reflexivity].
  apply (bool_decide_unpack _). vm_compute. exact I.
Qed.

(** ** The kernels: pruning and the spin-restricted block *)

Section KernelFacts.
Context {F : Type} `{Scalar F}.

Lemma memset0_malloc_part (n off k : nat) :
  memset0 (malloc n) off k = malloc (F:=F) n.
Proof.
  apply ld_ext; [apply length_memset0|].
  intros p _. rewrite ld_memset0, ld_malloc. by case_decide.
Qed.

Lemma scale_sqrt2_spec (buf : list F) (lo hi : nat) :
  length (scale_sqrt2 buf lo hi) = length buf ∧
  ∀ p, p < length buf →
    ld (scale_sqrt2 buf lo hi) p =
      if decide (lo ≤ p < hi) then fmul (ld buf p) SQRT2 else ld buf p.
Proof.
  unfold scale_sqrt2.
  loop_inv (fun (d : nat) (b : list F) => length b = length buf ∧
    ∀ p, p < length buf →
      ld b p = if decide (lo ≤ p < lo + d) then fmul (ld buf p) SQRT2
               else ld buf p).
  - split; [done|]. intros p _. rewrite decide_False by lia. done.
  - intros d b Hd [Hl Hb]. split; [by rewrite length_insert|].
    intros p Hp. destruct (decide (p = lo + d)) as [->|Hne].
    + rewrite ld_insert_eq by lia. rewrite decide_True by lia.
      rewrite Hb by done. rewrite decide_False by lia. done.
    + rewrite ld_insert_ne by lia. rewrite Hb by done.
      repeat case_decide; first [done|lia].
  - destruct HI as [Hl Hb]. split; [done|]. intros p Hp.
    rewrite Hb by done. repeat case_decide; first [done|lia].
Qed.

Lemma ld_add_at (buf : list F) p q x :
  ld (add_at buf p x) q =
    if decide (p = q ∧ p < length buf) then fadd (ld buf q) x else ld buf q.
Proof.
  case_decide as Hd.
  - destruct Hd as [-> Hp]. by apply ld_add_at_eq.
  - destruct (decide (p = q)) as [->|Hne]; [|by apply ld_add_at_ne].
    rewrite ld_ge by (rewrite length_add_at; lia). by rewrite ld_ge by lia.
Qed.

(** The beta pass clears every column before it accumulates into it: what
    the scratch buffer held before is immaterial. *)
Lemma rdm2_0b_t1_overwrites (ci0 t1 t1' : list F) fillcnt stra_id norb nstrb
    nlinkb clink_indexb tab_off :
  length t1 = length t1' → length t1 ≤ fillcnt * (norb * norb) →
  rdm2_0b_t1 ci0 t1 fillcnt stra_id norb nstrb nlinkb clink_indexb tab_off
  = rdm2_0b_t1 ci0 t1' fillcnt stra_id norb nstrb nlinkb clink_indexb tab_off.
Proof.
  intros Hl Hle. unfold rdm2_0b_t1.
  set (R := fun (bound : nat) (s s' : list F * F) =>
    s.2 = s'.2 ∧ length s.1 = length t1 ∧ length s'.1 = length t1 ∧
    ∀ p, p < bound → ld s.1 p = ld s'.1 p).
  match goal with |- ?X = ?Y => cut (R (fillcnt * (norb * norb)) X Y) end.
  { intros (E2 & L1 & L2 & E1).
    apply injective_projections; [|done].
    apply ld_ext; [lia|]. intros p Hp. apply E1. lia. }
  apply (for_rel (fun str0 s s' => R (str0 * (norb * norb)) s s')).
  { unfold R. simpl. split_and!; [done|done|lia|]. intros p Hp. lia. }
  intros str0 s s' Hstr0 (E2 & L1 & L2 & E1).
  replace (S str0 * (norb * norb)) with (str0 * (norb * norb) + norb * norb)
    by lia.
  apply (for_rel (fun _ s s' => R (str0 * (norb * norb) + norb * norb) s s')).
  { unfold R. simpl. rewrite !length_memset0. split_and!; [done..|].
    intros p Hp. rewrite !ld_memset0. case_decide; [done|]. apply E1. lia. }
  intros j u u' Hj (F2 & M1 & M2 & F1). unfold R. simpl.
  rewrite !length_add_at. split_and!; [by rewrite F2|done..|].
  intros p Hp. rewrite !ld_add_at, M1, M2. by rewrite F1.
Qed.

Lemma kern_ms0_ab_overwrites (ci0 t1 t1' : list F) fillcnt stra_id strb_id
    norb na nlink clink_index :
  length t1 = length t1' → length t1 ≤ fillcnt * (norb * norb) →
  kern_ms0_ab ci0 t1 fillcnt stra_id strb_id norb na nlink clink_index
  = kern_ms0_ab ci0 t1' fillcnt stra_id strb_id norb na nlink clink_index.
Proof.
  intros Hl Hle. unfold kern_ms0_ab.
  by rewrite (rdm2_0b_t1_overwrites ci0 t1 t1').
Qed.

(** The spin-restricted kernel on a pair [strb_id <= stra_id], with the two
    branches that choose [fill0] and [fill1] merged. *)
Lemma spin0_unfold rdm1 rdm2 bra ket fillcnt stra_id strb_id
    norb na nb nlinka nlinkb clink_indexa clink_indexb :
  strb_id ≤ stra_id →
  FCIrdm12kern_spin0 rdm1 rdm2 bra ket fillcnt stra_id strb_id
    norb na nb nlinka nlinkb clink_indexa clink_indexb =
  let nnorb := norb * norb in
  let fill0 := spin0_fill0 fillcnt stra_id strb_id in
  let fill1 := spin0_fill1 fillcnt stra_id strb_id in
  let t := spin0_t1 ket fillcnt stra_id strb_id norb na nlinka clink_indexa in
  if fltb CSUMTHR t.2 then
    (dgemv nnorb fill1 D2 t.1 ket (stra_id * na + strb_id) rdm1,
     dsyrk nnorb fill1 D2 (scale_sqrt2 t.1 (fill0 * nnorb) (fill1 * nnorb)) rdm2)
  else (rdm1, rdm2).
Proof.
  intros Hle. unfold FCIrdm12kern_spin0, spin0_t1, spin0_fill1, spin0_fill0.
  rewrite decide_False by lia.
  destruct (decide (strb_id + fillcnt < stra_id)) as [Hlt|Hge].
  - rewrite decide_False by lia.
    replace (fillcnt `min` (stra_id - strb_id)) with fillcnt by lia. done.
  - rewrite decide_True by lia.
    replace (fillcnt `min` (stra_id - strb_id)) with (stra_id - strb_id) by lia.
    rewrite memset0_malloc_part. done.
Qed.

(** On the pair [stra_id = strb_id + fillcnt] the kernel builds the column
    of the string [strb = stra_id], which lies one past its block of
    [fillcnt] strings. *)
Lemma spin0_fill1_past_block fillcnt stra_id strb_id :
  stra_id = strb_id + fillcnt →
  spin0_fill1 fillcnt stra_id strb_id = fillcnt + 1.
Proof.
  intros ->. unfold spin0_fill1, spin0_fill0.
  rewrite decide_True by lia. lia.
Qed.

End KernelFacts.

(** C5: the spin-restricted kernel leaves the accumulators alone on the
    pairs [stra_id < strb_id].  On the pairs [strb_id <= stra_id] it
    accumulates with scale factor 2 in both the rank-1 and the rank-k
    update (unless the block is pruned), the rank-k update reading T1 with
    one column weighted by [SQRT2]: the column of the string
    [strb = stra_id], when the call builds it. *)
Theorem spin0_kernel_spec {F : Type} `{Scalar F} rdm1 rdm2 bra ket
    fillcnt stra_id strb_id norb na nb nlinka nlinkb clink_indexa clink_indexb :
  let nnorb := norb * norb in
  let out := FCIrdm12kern_spin0 rdm1 rdm2 bra ket fillcnt stra_id strb_id
               norb na nb nlinka nlinkb clink_indexa clink_indexb in
  (stra_id < strb_id → out = (rdm1, rdm2)) ∧
  (strb_id ≤ stra_id →
     let fill1 := spin0_fill1 fillcnt stra_id strb_id in
     let t := spin0_t1 ket fillcnt stra_id strb_id norb na nlinka clink_indexa in
     ∃ tw : list F,
       out = (if fltb CSUMTHR t.2 then
                (dgemv nnorb fill1 (of_int 2) t.1 ket (stra_id * na + strb_id) rdm1,
                 dsyrk nnorb fill1 (of_int 2) tw rdm2)
              else (rdm1, rdm2)) ∧
       length tw = length t.1 ∧
       ∀ col e, e < nnorb → col * nnorb + e < length t.1 →
         ld tw (col * nnorb + e) =
           if decide (col < fill1 ∧ strb_id + col = stra_id)
           then fmul (ld t.1 (col * nnorb + e)) SQRT2
           else ld t.1 (col * nnorb + e)).
Proof.
  intros nnorb out. split.
  - intros Hlt. unfold out, FCIrdm12kern_spin0. by rewrite decide_True.
  - intros Hle fill1 t. unfold out. rewrite spin0_unfold by done.
    cbv zeta. fold nnorb t fill1.
    set (fill0 := spin0_fill0 fillcnt stra_id strb_id).
    exists (scale_sqrt2 t.1 (fill0 * nnorb) (fill1 * nnorb)).
    destruct (scale_sqrt2_spec t.1 (fill0 * nnorb) (fill1 * nnorb)) as [Hl Hs].
    split_and!; [done|done|].
    intros col e He Hp. rewrite Hs by done.
    unfold fill1, spin0_fill1. fold fill0. unfold fill0, spin0_fill0.
    destruct (decide (stra_id ≤ strb_id + fillcnt)).
    + replace (fillcnt `min` (stra_id - strb_id)) with (stra_id - strb_id) by lia.
      destruct (decide (col = stra_id - strb_id)) as [->|Hne].
      * rewrite !decide_True by lia. done.
      * rewrite !decide_False; [done|lia|nia].
    + rewrite !decide_False; [done|lia|nia].
Qed.

Lemma spin0_kernel_spec_witness :
  0 < 1 ∧
  FCIrdm12kern_spin0 (malloc 4) (malloc 16) ket_pair ket_pair 2 0 1
    2 2 2 2 2 clink2 clink2 = (malloc 4, malloc 16).
Proof.
  split; [lia|].
  apply (spin0_kernel_spec (malloc 4) (malloc 16) ket_pair ket_pair 2 0 1
           2 2 2 2 2 clink2 clink2). lia.
Defined.

(** C6, as the code has it: a ground-state kernel whose block norm is not
    above [CSUMTHR] returns the accumulators it was given; a transition
    kernel returns them when the norm of its first T1 is below [CSUMTHR],
    and then whatever the state its second T1 would be built from, or when
    the norm of its second T1 is below [CSUMTHR]. *)
Theorem pruned_block_leaves_accumulators {F : Type} `{Scalar F}
    rdm1 rdm2 (bra ket : list F) fillcnt stra_id strb_id
    norb na nb nlinka nlinkb clink_indexa clink_indexb :
  let buf := malloc (norb * norb * fillcnt) in
  let ab ci := (kern_ms0_ab ci buf fillcnt stra_id strb_id
                  norb na nlinka clink_indexa).2 in
  let al ci := (rdm2_a_t1 ci strb_id buf fillcnt stra_id
                  norb nb nlinka clink_indexa).2 in
  let be ci := (rdm2_0b_t1 ci buf fillcnt stra_id
                  norb nb nlinkb clink_indexb (strb_id * nlinkb)).2 in
  let s0 := (spin0_t1 ket fillcnt stra_id strb_id norb na nlinka clink_indexa).2 in
  let unchanged (kern : kernel_t) b k :=
    kern rdm1 rdm2 b k fillcnt stra_id strb_id
         norb na nb nlinka nlinkb clink_indexa clink_indexb = (rdm1, rdm2) in
  (fltb CSUMTHR (ab ket) = false → unchanged FCIrdm12kern_ms0 bra ket) ∧
  (stra_id < strb_id ∨ fltb CSUMTHR s0 = false →
     unchanged FCIrdm12kern_spin0 bra ket) ∧
  (fltb CSUMTHR (al ket) = false → unchanged FCIrdm12kern_a bra ket) ∧
  (fltb CSUMTHR (be ket) = false → unchanged FCIrdm12kern_b bra ket) ∧
  (fltb (ab bra) CSUMTHR = true → ∀ ket', unchanged FCItdm12kern_ms0 bra ket') ∧
  (fltb (al bra) CSUMTHR = true → ∀ ket', unchanged FCItdm12kern_a bra ket') ∧
  (fltb (be bra) CSUMTHR = true → ∀ ket', unchanged FCItdm12kern_b bra ket') ∧
  (fltb (al bra) CSUMTHR = true → ∀ ket', unchanged FCItdm12kern_ab bra ket') ∧
  (fltb (ab ket) CSUMTHR = true → unchanged FCItdm12kern_ms0 bra ket) ∧
  (fltb (al ket) CSUMTHR = true → unchanged FCItdm12kern_a bra ket) ∧
  (fltb (be ket) CSUMTHR = true → unchanged FCItdm12kern_b bra ket) ∧
  (fltb (be ket) CSUMTHR = true → unchanged FCItdm12kern_ab bra ket).
Proof.
  intros buf ab al be s0 unchanged. unfold unchanged, ab, al, be, s0, buf.
  split_and!.
  - intros Hc. unfold FCIrdm12kern_ms0. by rewrite Hc.
  - intros [Hlt|Hc].
    + unfold FCIrdm12kern_spin0. by rewrite decide_True.
    + destruct (decide (stra_id < strb_id)) as [Hlt|Hge].
      * unfold FCIrdm12kern_spin0. by rewrite decide_True.
      * rewrite spin0_unfold by lia. cbv zeta. by rewrite Hc.
  - intros Hc. unfold FCIrdm12kern_a. rewrite memset0_malloc. by rewrite Hc.
  - intros Hc. unfold FCIrdm12kern_b. by rewrite Hc.
  - intros Hc ket'. unfold FCItdm12kern_ms0. by rewrite Hc.
  - intros Hc ket'. unfold FCItdm12kern_a. rewrite memset0_malloc. by rewrite Hc.
  - intros Hc ket'. unfold FCItdm12kern_b. by rewrite Hc.
  - intros Hc ket'. unfold FCItdm12kern_ab. rewrite memset0_malloc. by rewrite Hc.
  - intros Hc. unfold FCItdm12kern_ms0. rewrite Hc. by case_match.
  - intros Hc. unfold FCItdm12kern_a. rewrite !memset0_malloc, Hc. by case_match.
  - intros Hc. unfold FCItdm12kern_b. rewrite Hc. by case_match.
  - intros Hc. unfold FCItdm12kern_ab. rewrite Hc. by case_match.
Qed.

(** On the single determinant the beta pass on the alpha string 1 has norm
    0: [FCIrdm12kern_b] is pruned there. *)
Lemma pruned_block_leaves_accumulators_witness :
  fltb CSUMTHR (rdm2_0b_t1 ket_single (malloc (2 * 2 * 2)) 2 1 2 2 2 clink2 (0 * 2)).2
    = false ∧
  FCIrdm12kern_b (malloc 4) (malloc 16) ket_single ket_single 2 1 0
    2 2 2 2 2 clink2 clink2 = (malloc 4, malloc 16).
Proof.
  split; [vm_compute; reflexivity|].
  apply (pruned_block_leaves_accumulators (malloc 4) (malloc 16)
           ket_single ket_single 2 1 0 2 2 2 2 2 clink2 clink2).
  vm_compute. reflexivity.
Defined.

(** C6, as stated, fails for the transition kernels: with
    [ci = [1e-14,0,0,0]] the block of the alpha string 1 has a norm equal to
    [CSUMTHR], which does not exceed it, and the kernel accumulates. *)
Lemma tdm_kernel_accumulates_at_threshold :
  let csum := (kern_ms0_ab ket_tiny (malloc (2 * 2 * 2)) 2 1 0 2 2 2 clink2).2 in
  fltb CSUMTHR csum = false ∧
  FCItdm12kern_ms0 (malloc 4) (malloc 16) ket_tiny ket_tiny 2 1 0
    2 2 2 2 2 clink2 clink2 ≠ (malloc 4, malloc 16).
Proof.
  split; [vm_compute; reflexivity|].
  apply (neq_by (fun r : list float * list float =>
                   match r.2 !! 10 with
                   | Some v => PrimFloat.eqb v 0
                   | None => false
                   end)).
  vm_compute. discriminate.
Qed.

(** ** Double precision *)

(** Multiplication of doubles is commutative and has 1 as unit, by the
    IEEE-754 specification of the primitive operations. *)
Lemma float_mul_comm (x y : float) : PrimFloat.mul x y = PrimFloat.mul y x.
Proof.
  apply Prim2SF_inj. rewrite !mul_spec.
  destruct (Prim2SF x) as [sx|sx| |sx mx ex], (Prim2SF y) as [sy|sy| |sy my ey];
    simpl; rewrite ?(xorb_comm sx sy); try reflexivity.
  unfold SF64mul, SFmul. rewrite (Pos.mul_comm mx my), (Z.add_comm ex ey).
  reflexivity.
Qed.

Lemma Prim2SF_one :
  Prim2SF 1 = S754_finite false 4503599627370496 (-52).
Proof. vm_compute. reflexivity. Qed.

Lemma digits2_shl_pos n m :
  Z.pos (digits2_pos (shl_pos n m)) = (Z.pos (digits2_pos m) + Z.of_nat n)%Z.
Proof.
  induction n as [|n IH]; [simpl; lia|].
  cbn [shl_pos digits2_pos]. rewrite Pos2Z.inj_succ, IH. lia.
Qed.

Lemma float_mul_1_l (x : float) : PrimFloat.mul 1 x = x.
Proof.
  apply Prim2SF_inj. rewrite mul_spec, Prim2SF_one.
  pose proof (Prim2SF_valid x) as Hv.
  destruct (Prim2SF x) as [s|s| |s m e]; try reflexivity.
  unfold SF64mul, SFmul. change (xorb false s) with s.
  unfold valid_binary, bounded, canonical_mantissa in Hv.
  apply andb_prop in Hv as [Hc Hb]. apply Z.eqb_eq in Hc.
  change (4503599627370496 * m)%positive with (shl_pos 52 m).
  unfold binary_round_aux, shr_fexp, Zdigits2.
  rewrite digits2_shl_pos.
  replace (Z.pos (digits2_pos m) + Z.of_nat 52 + (-52 + e))%Z
    with (Z.pos (digits2_pos m) + e)%Z by lia.
  rewrite Hc. replace (e - (-52 + e))%Z with 52%Z by lia.
  unfold shr.
  change (SpecFloat.iter_pos shr_1 52 (shr_record_of_loc (Z.pos (shl_pos 52 m)) loc_Exact))
    with {| shr_m := Z.pos m; shr_r := false; shr_s := false |}.
  cbn [shr_m loc_of_shr_record round_nearest_even shr_record_of_loc].
  replace (-52 + e + 52)%Z with e by lia.
  rewrite Hc, Z.sub_diag. cbn [shr_m]. rewrite Hb. reflexivity.
Qed.

(** ** Exact arithmetic *)

#[export] Instance exactQ_laws : ScalarLaws Qc.
Proof.
  split.
  - split; simpl; intros;
      change (Q2Qc (inject_Z 0)) with 0%Qc; change (Q2Qc (inject_Z 1)) with 1%Qc.
    all: ring.
  - intros n. simpl. apply Qc_is_canon. simpl.
    rewrite !Qred_correct. rewrite Nat2Z.inj_succ. unfold Z.succ.
    rewrite inject_Z_plus. reflexivity.
Qed.

Section Sums.
Context {F : Type} `{ScalarLaws F}.

Add Ring scalar_ring_inst : scalar_ring.

Lemma sumf_S n (f : nat → F) : sumf (S n) f = fadd (sumf n f) (f n).
Proof. unfold sumf. by rewrite for_S. Qed.

Lemma sumf_ext n (f g : nat → F) :
  (∀ p, p < n → f p = g p) → sumf n f = sumf n g.
Proof.
  intros E. induction n as [|n IH]; [done|].
  rewrite !sumf_S, IH by (intros; apply E; lia). by rewrite E by lia.
Qed.

Lemma sumf_zero n : sumf n (fun _ => D0) = D0 :> F.
Proof.
  induction n as [|n IH]; [done|]. rewrite sumf_S, IH. unfold D0. ring.
Qed.

Lemma sumf_add n (f g : nat → F) :
  sumf n (fun p => fadd (f p) (g p)) = fadd (sumf n f) (sumf n g).
Proof.
  induction n as [|n IH]; [cbn; unfold D0; ring|].
  rewrite !sumf_S, IH. ring.
Qed.

Lemma sumf_mul_l n c (f : nat → F) :
  sumf n (fun p => fmul c (f p)) = fmul c (sumf n f).
Proof.
  induction n as [|n IH]; [cbn; unfold D0; ring|].
  rewrite !sumf_S, IH. ring.
Qed.

Lemma sumf_single n q (x : F) :
  sumf n (fun p => if decide (p = q) then x else D0) =
    if decide (q < n) then x else D0.
Proof.
  induction n as [|n IH]; [done|].
  rewrite sumf_S, IH. unfold D0.
  repeat case_decide; first [ring|lia].
Qed.

Lemma sumf_app m n (f : nat → F) :
  sumf (m + n) f = fadd (sumf m f) (sumf n (fun k => f (m + k))).
Proof.
  induction n as [|n IH].
  - rewrite Nat.add_0_r. cbn. unfold D0. ring.
  - rewrite Nat.add_succ_r, !sumf_S, IH. ring.
Qed.

Lemma sumf_flatten na nb (f : nat → F) :
  sumf (na * nb) f = sumf na (fun s => sumf nb (fun k => f (s * nb + k))).
Proof.
  induction na as [|na IH]; [done|].
  replace (S na * nb) with (na * nb + nb) by lia.
  rewrite sumf_app, sumf_S, IH. done.
Qed.

(** Multiples of a scalar by a count. *)
Lemma of_int_zero_mul (x : F) : fmul (of_int (Z.of_nat 0)) x = D0.
Proof. change (Z.of_nat 0) with 0%Z. unfold D0. ring. Qed.

Lemma of_int_succ_mul n (x : F) :
  fmul (of_int (Z.of_nat (S n))) x = fadd (fmul (of_int (Z.of_nat n)) x) x.
Proof. rewrite of_int_succ. ring. Qed.

End Sums.

(** ** The trace of the direct 1-RDM *)

Lemma valid_record link_index norb nstr nlink N k j :
  valid_links link_index norb nstr nlink N → k < nstr → j < nlink →
  let r := tab_at (compress_link (malloc_link (nlink * nstr)) link_index
                     norb nstr nlink) (k * nlink + j) in
  EXTRACT_A r = raw_field link_index nlink k j 0 ∧
  EXTRACT_I r = raw_field link_index nlink k j 1 ∧
  to_int (EXTRACT_ADDR r) = raw_field link_index nlink k j 2 ∧
  EXTRACT_SIGN r = raw_field link_index nlink k j 3.
Proof.
  intros (Hnorb & Hnstr & Hv) Hk Hj r.
  destruct (Hv k Hk) as [_ Hrec].
  destruct (Hrec j Hj) as (Ha & Hi & Hs & Hg & _).
  assert (Hr : r = store_link (raw_field link_index nlink k j 0)
                 (raw_field link_index nlink k j 1)
                 (raw_field link_index nlink k j 2)
                 (raw_field link_index nlink k j 3)).
  { unfold r. rewrite compress_link_at
      by (unfold malloc_link; rewrite length_replicate; lia).
    rewrite decide_True by nia. done. }
  rewrite Hr. simpl.
  assert (Z.of_nat norb ≤ 2 ^ 8)%Z by (change (2 ^ 8)%Z with (Z.of_nat (2 ^ 8)); lia).
  split_and!.
  - apply to_uchar_id. lia.
  - apply to_uchar_id. lia.
  - apply to_int_to_uint. lia.
  - apply to_schar_id. lia.
Qed.

Section TraceFacts.
Context {F : Type} `{ScalarLaws F}.

Add Ring scalar_ring_trace : scalar_ring.

Lemma ldZ_of_nat (buf : list F) (n : nat) : ldZ buf (Z.of_nat n) = ld buf n.
Proof. unfold ldZ. rewrite decide_True by lia. by rewrite Nat2Z.id. Qed.

Lemma trace_insert_ne norb (m : list F) a i v :
  a < norb → i < norb → a ≠ i →
  trace norb (<[a * norb + i := v]> m) = trace norb m.
Proof.
  intros Ha Hi Hne. unfold trace. apply sumf_ext. intros p Hp.
  apply ld_insert_ne. intros E. apply idx_inj in E as [-> ->]; lia.
Qed.

Lemma trace_add_at_diag norb (m : list F) a x :
  length m = norb * norb → a < norb →
  trace norb (add_at m (a * norb + a) x) = fadd (trace norb m) x.
Proof.
  intros Hl Ha. unfold trace.
  rewrite (sumf_ext _ _ (fun p => fadd (ld m (p * norb + p))
                                   (if decide (p = a) then x else D0))).
  - rewrite sumf_add, sumf_single. by rewrite decide_True.
  - intros p Hp. destruct (decide (p = a)) as [->|Hne].
    + by rewrite ld_add_at_eq by nia.
    + rewrite ld_add_at_ne; [unfold D0; ring|].
      intros E. apply idx_inj in E as [-> _]; lia.
Qed.

Lemma trace_symmetrize norb (m : list F) :
  length m = norb * norb → trace norb (symmetrize norb m) = trace norb m.
Proof.
  intros Hl. unfold trace. apply sumf_ext. intros p Hp.
  destruct (symmetrize_spec norb m ltac:(lia)) as [_ Hs].
  rewrite Hs by done. by rewrite decide_False by lia.
Qed.

Lemma trace_cleared norb :
  trace norb (memset0 (malloc (norb * norb)) 0 (norb * norb)) = D0 :> F.
Proof.
  rewrite memset0_malloc. unfold trace.
  rewrite (sumf_ext _ _ (fun _ => D0)); [apply sumf_zero|].
  intros p _. apply ld_malloc.
Qed.

(** A run of [+=] on one cell of the matrix. *)
Lemma trace_loop_add norb (m : list F) a i n (g : nat → F) :
  length m = norb * norb → a < norb → i < norb →
  length (for_ n (fun k m => add_at m (a * norb + i) (g k)) m) = norb * norb ∧
  trace norb (for_ n (fun k m => add_at m (a * norb + i) (g k)) m) =
    if decide (a = i) then fadd (trace norb m) (sumf n g) else trace norb m.
Proof.
  intros Hl Ha Hi.
  loop_inv (fun (K : nat) (c : list F) => length c = norb * norb ∧
    trace norb c = if decide (a = i) then fadd (trace norb m) (sumf K g)
                   else trace norb m).
  - split; [done|]. case_decide; [|done]. cbn. unfold D0. ring.
  - intros K c HK [Hc Ht]. split; [by rewrite length_add_at|].
    destruct (decide (a = i)) as [->|Hne].
    + rewrite trace_add_at_diag, Ht, sumf_S by done. ring.
    + unfold add_at. by rewrite trace_insert_ne.
  - exact HI.
Qed.

(** A run of [-=] on one cell off the diagonal. *)
Lemma trace_loop_sub norb (m : list F) a i n (g : nat → F) :
  length m = norb * norb → a < norb → i < norb → a ≠ i →
  length (for_ n (fun k m => sub_at m (a * norb + i) (g k)) m) = norb * norb ∧
  trace norb (for_ n (fun k m => sub_at m (a * norb + i) (g k)) m) = trace norb m.
Proof.
  intros Hl Ha Hi Hne.
  loop_inv (fun (K : nat) (c : list F) => length c = norb * norb ∧
    trace norb c = trace norb m).
  - done.
  - intros K c HK [Hc Ht]. split; [by rewrite length_sub_at|].
    unfold sub_at. by rewrite trace_insert_ne.
  - exact HI.
Qed.

Lemma diag_count_S (link_index : list Z) (nlink k J : nat) :
  let P j := raw_field link_index nlink k j 0 = raw_field link_index nlink k j 1 in
  length (filter P (seq 0 (S J))) =
    length (filter P (seq 0 J)) + (if decide (P J) then 1 else 0).
Proof.
  intros P. rewrite seq_S, list.filter_app, length_app. f_equal.
  simpl. rewrite list.filter_cons, list.filter_nil. by case_decide.
Qed.

(** Facts about the run of [+=] or [-=] found in the goal. *)
Ltac loop_add_facts norb c Hc L T :=
  match goal with
  | |- context [for_ ?n (fun k m => add_at m (?a * norb + ?i) (@?g k)) c] =>
      destruct (trace_loop_add norb c a i n g Hc ltac:(lia) ltac:(lia)) as [L T]
  end.
Ltac loop_sub_facts norb c Hc L T :=
  match goal with
  | |- context [for_ ?n (fun k m => sub_at m (?a * norb + ?i) (@?g k)) c] =>
      destruct (trace_loop_sub norb c a i n g Hc ltac:(lia) ltac:(lia) ltac:(lia))
        as [L T]
  end.

Lemma rdm1a_trace cibra (ci : list F) norb na nb nlinka nlinkb
    link_indexa link_indexb N :
  valid_links link_indexa norb na nlinka N →
  trace norb (FCImake_rdm1a cibra ci norb na nb nlinka nlinkb
                link_indexa link_indexb)
  = fmul (of_int (Z.of_nat N)) (sumf (na * nb) (fun k => fmul (ld ci k) (ld ci k))).
Proof.
  intros Hv. unfold FCImake_rdm1a. cbv zeta.
  rewrite sumf_flatten.
  set (row := fun s => sumf nb (fun k => fmul (ld ci (s * nb + k)) (ld ci (s * nb + k)))).
  match goal with |- trace norb (symmetrize norb ?R) = _ =>
    cut (length R = norb * norb ∧
         trace norb R = fmul (of_int (Z.of_nat N)) (sumf na row)) end.
  { intros [Hl Ht]. by rewrite trace_symmetrize. }
  apply (for_ind (fun s m => length m = norb * norb ∧
           trace norb m = fmul (of_int (Z.of_nat N)) (sumf s row))).
  { split; [by rewrite length_memset0, length_malloc|].
    rewrite trace_cleared. change (sumf 0 row) with (D0 (F:=F)). unfold D0. ring. }
  intros str0 m Hs [Hl Ht]. rewrite sumf_S.
  set (P := fun j => raw_field link_indexa nlinka str0 j 0
                     = raw_field link_indexa nlinka str0 j 1).
  match goal with |- length ?R = _ ∧ _ =>
    cut (length R = norb * norb ∧
         trace norb R = fadd (trace norb m)
           (fmul (of_int (Z.of_nat (length (filter P (seq 0 nlinka))))) (row str0)))
  end.
  { intros [Hl' Ht']. split; [done|]. rewrite Ht', Ht.
    destruct Hv as (_ & _ & Hv). destruct (Hv str0 Hs) as [Hc _].
    unfold diag_count in Hc. fold P in Hc. rewrite Hc. ring. }
  apply (for_ind (fun J c => length c = norb * norb ∧
           trace norb c = fadd (trace norb m)
             (fmul (of_int (Z.of_nat (length (filter P (seq 0 J))))) (row str0)))).
  { split; [done|]. change (length (filter P (seq 0 0))) with 0.
    rewrite of_int_zero_mul. unfold D0. ring. }
  intros j c Hj [Hc Htc]. cbv beta zeta.
  destruct (valid_record _ _ _ _ _ str0 j Hv Hs Hj) as (Ea & Ei & Es & Eg).
  cbv zeta in Ea, Ei, Es, Eg. rewrite Ea, Ei, Es, Eg. clear Ea Ei Es Eg.
  destruct Hv as (Hnorb & Hnstr & Hv). destruct (Hv str0 Hs) as [_ Hrec].
  destruct (Hrec j Hj) as (Ha & Hi & Hs' & Hg & Hd).
  pose proof (diag_count_S link_indexa nlinka str0 j) as HS. cbv zeta in HS.
  fold P in HS. rewrite HS. clear HS.
  destruct (decide (P j)) as [E|NE].
  - destruct (Hd E) as [Es2 Eg2]. unfold P in E. rewrite Eg2, Es2, E.
    rewrite decide_True by lia. rewrite decide_True by lia.
    loop_add_facts norb c Hc L T. split; [exact L|]. rewrite T. clear L T.
    rewrite decide_True by done. rewrite Htc.
    replace (length (filter P (seq 0 j)) + 1) with (S (length (filter P (seq 0 j))))
      by lia.
    rewrite of_int_succ_mul.
    rewrite (sumf_ext nb _ (fun k => fmul (ld ci (str0 * nb + k)) (ld ci (str0 * nb + k)))).
    + fold (row str0). ring.
    + intros k Hk. f_equal.
      replace (Z.of_nat str0 * Z.of_nat nb + Z.of_nat k)%Z
        with (Z.of_nat (str0 * nb + k)) by lia.
      apply ldZ_of_nat.
  - rewrite Nat.add_0_r. unfold P in NE.
    assert (Z.to_nat (raw_field link_indexa nlinka str0 j 0)
            ≠ Z.to_nat (raw_field link_indexa nlinka str0 j 1)) by lia.
    repeat case_decide.
    + loop_add_facts norb c Hc L T. split; [exact L|]. rewrite T.
      by rewrite decide_False.
    + loop_sub_facts norb c Hc L T. split; [exact L|]. by rewrite T.
    + done.
Qed.

Lemma rdm1b_trace cibra (ci : list F) norb na nb nlinka nlinkb
    link_indexa link_indexb N :
  valid_links link_indexb norb nb nlinkb N →
  trace norb (FCImake_rdm1b cibra ci norb na nb nlinka nlinkb
                link_indexa link_indexb)
  = fmul (of_int (Z.of_nat N)) (sumf (na * nb) (fun k => fmul (ld ci k) (ld ci k))).
Proof.
  intros Hv. unfold FCImake_rdm1b. cbv zeta.
  rewrite sumf_flatten.
  set (sq := fun s k => fmul (ld ci (s * nb + k)) (ld ci (s * nb + k))).
  match goal with |- trace norb (symmetrize norb ?R) = _ =>
    cut (length R = norb * norb ∧
         trace norb R = fmul (of_int (Z.of_nat N))
                          (sumf na (fun s => sumf nb (sq s)))) end.
  { intros [Hl Ht]. by rewrite trace_symmetrize. }
  apply (for_ind (fun s m => length m = norb * norb ∧
           trace norb m = fmul (of_int (Z.of_nat N))
                            (sumf s (fun s => sumf nb (sq s))))).
  { split; [by rewrite length_memset0, length_malloc|].
    rewrite trace_cleared.
    change (sumf 0 (fun s => sumf nb (sq s))) with (D0 (F:=F)). unfold D0. ring. }
  intros str0 m Hs [Hl Ht]. rewrite sumf_S.
  match goal with |- length ?R = _ ∧ _ =>
    cut (length R = norb * norb ∧
         trace norb R = fadd (trace norb m)
           (fmul (of_int (Z.of_nat N)) (sumf nb (sq str0))))
  end.
  { intros [Hl' Ht']. split; [done|]. rewrite Ht', Ht. ring. }
  apply (for_ind (fun K c => length c = norb * norb ∧
           trace norb c = fadd (trace norb m)
             (fmul (of_int (Z.of_nat N)) (sumf K (sq str0))))).
  { split; [done|]. change (sumf 0 (sq str0)) with (D0 (F:=F)). unfold D0. ring. }
  intros k c Hk [Hc Htc]. cbv beta zeta. rewrite sumf_S.
  set (P := fun j => raw_field link_indexb nlinkb k j 0
                     = raw_field link_indexb nlinkb k j 1).
  match goal with |- length ?R = _ ∧ _ =>
    cut (length R = norb * norb ∧
         trace norb R = fadd (trace norb c)
           (fmul (of_int (Z.of_nat (length (filter P (seq 0 nlinkb))))) (sq str0 k)))
  end.
  { intros [Hl' Ht']. split; [done|]. rewrite Ht', Htc.
    destruct Hv as (_ & _ & Hv). destruct (Hv k Hk) as [Hcnt _].
    unfold diag_count in Hcnt. fold P in Hcnt. rewrite Hcnt. ring. }
  apply (for_ind (fun J d => length d = norb * norb ∧
           trace norb d = fadd (trace norb c)
             (fmul (of_int (Z.of_nat (length (filter P (seq 0 J))))) (sq str0 k)))).
  { split; [done|]. change (length (filter P (seq 0 0))) with 0.
    rewrite of_int_zero_mul. unfold D0. ring. }
  intros j d Hj [Hd Htd]. cbv beta zeta.
  destruct (valid_record _ _ _ _ _ k j Hv Hk Hj) as (Ea & Ei & Es & Eg).
  cbv zeta in Ea, Ei, Es, Eg. rewrite Ea, Ei, Es, Eg. clear Ea Ei Es Eg.
  destruct Hv as (Hnorb & Hnstr & Hv). destruct (Hv k Hk) as [_ Hrec].
  destruct (Hrec j Hj) as (Ha & Hi & Hs' & Hg & Hdg).
  pose proof (diag_count_S link_indexb nlinkb k j) as HS. cbv zeta in HS.
  fold P in HS. rewrite HS. clear HS.
  destruct (decide (P j)) as [E|NE].
  - destruct (Hdg E) as [Es2 Eg2]. unfold P in E. rewrite Eg2, Es2, E.
    rewrite decide_True by lia. rewrite decide_True by lia.
    split; [by rewrite length_add_at|].
    rewrite trace_add_at_diag by (done || lia). rewrite Htd.
    replace (length (filter P (seq 0 j)) + 1) with (S (length (filter P (seq 0 j))))
      by lia.
    rewrite of_int_succ_mul.
    replace (Z.of_nat (str0 * nb) + Z.of_nat k)%Z
      with (Z.of_nat (str0 * nb + k)) by lia.
    rewrite ldZ_of_nat. unfold sq. ring.
  - rewrite Nat.add_0_r. unfold P in NE.
    assert (Z.to_nat (raw_field link_indexb nlinkb k j 0)
            ≠ Z.to_nat (raw_field link_indexb nlinkb k j 1)) by lia.
    unfold add_at, sub_at.
    repeat case_decide; (split; [by rewrite ?length_insert|]);
      rewrite ?trace_insert_ne by lia; done.
Qed.

End TraceFacts.

(** ** The diagonal cells in any arithmetic *)

Section DiagFacts.
Context {F : Type} `{Scalar F}.

Lemma rdm1a_diag_cell cibra (ci : list F) norb na nb nlinka nlinkb
    link_indexa link_indexb N p :
  valid_links link_indexa norb na nlinka N → p < norb →
  length (FCImake_rdm1a cibra ci norb na nb nlinka nlinkb
            link_indexa link_indexb) = norb * norb ∧
  ld (FCImake_rdm1a cibra ci norb na nb nlinka nlinkb link_indexa link_indexb)
     (p * norb + p)
  = rdm1a_diag ci na nb nlinka link_indexa p.
Proof.
  intros Hv Hp. unfold FCImake_rdm1a, rdm1a_diag. cbv zeta.
  assert (Hpp : p * norb + p < norb * norb) by nia.
  match goal with |- _ ∧ ld (symmetrize norb ?R) _ = ?S =>
    cut (length R = norb * norb ∧ ld R (p * norb + p) = S) end.
  { intros [L E]. rewrite <- E.
    destruct (symmetrize_spec norb _ ltac:(rewrite L; lia)) as [Ls Hs].
    split; [lia|]. rewrite Hs by done. by rewrite decide_False by lia. }
  apply (for_rel (fun _ (m : list F) (acc : F) =>
           length m = norb * norb ∧ ld m (p * norb + p) = acc)).
  { split; [by rewrite length_memset0, length_malloc|].
    by rewrite memset0_malloc, ld_malloc. }
  intros str0 m acc Hs R.
  apply (for_rel (fun _ (m : list F) (acc : F) =>
           length m = norb * norb ∧ ld m (p * norb + p) = acc)); [exact R|].
  clear m acc R. intros j m acc Hj [L E]. cbv beta.
  destruct (valid_record _ _ _ _ _ str0 j Hv Hs Hj) as (Ea & Ei & Es & Eg).
  cbv zeta in Ea, Ei, Es, Eg. rewrite Ea, Ei, Es, Eg. clear Ea Ei Es Eg.
  destruct Hv as (Hnorb & Hnstr & Hv). destruct (Hv str0 Hs) as [_ Hrec].
  destruct (Hrec j Hj) as (Ha & Hi & Hs' & Hg & Hd).
  destruct (decide (raw_field link_indexa nlinka str0 j 0 = Z.of_nat p ∧
                    raw_field link_indexa nlinka str0 j 1 = Z.of_nat p))
    as [[Ea Ei]|Hne].
  - destruct (Hd ltac:(congruence)) as [Es2 Eg2].
    rewrite Eg2, Es2, Ea, Ei, Nat2Z.id.
    rewrite !decide_True by lia.
    apply (for_rel (fun _ (m : list F) (acc : F) =>
             length m = norb * norb ∧ ld m (p * norb + p) = acc)); [done|].
    intros k m' acc' Hk [L' E']. split; [by rewrite length_add_at|].
    rewrite ld_add_at_eq by lia. rewrite E'.
    replace (Z.of_nat str0 * Z.of_nat nb + Z.of_nat k)%Z
      with (Z.of_nat (str0 * nb + k)) by lia.
    by rewrite ldZ_of_nat.
  - assert (Hc : Z.to_nat (raw_field link_indexa nlinka str0 j 0) * norb
                 + Z.to_nat (raw_field link_indexa nlinka str0 j 1)
                 ≠ p * norb + p).
    { intros Eq. apply idx_inj in Eq as [Eq1 Eq2]; lia. }
    repeat case_decide; [| |done].
    + apply (for_ind (fun _ (m' : list F) =>
               length m' = norb * norb ∧ ld m' (p * norb + p) = acc)); [done|].
      intros k m' Hk [L' E']. split; [by rewrite length_add_at|].
      by rewrite ld_add_at_ne.
    + apply (for_ind (fun _ (m' : list F) =>
               length m' = norb * norb ∧ ld m' (p * norb + p) = acc)); [done|].
      intros k m' Hk [L' E']. split; [by rewrite length_sub_at|].
      by rewrite ld_sub_at_ne.
Qed.

Lemma rdm1b_diag_cell cibra (ci : list F) norb na nb nlinka nlinkb
    link_indexa link_indexb N p :
  valid_links link_indexb norb nb nlinkb N → p < norb →
  length (FCImake_rdm1b cibra ci norb na nb nlinka nlinkb
            link_indexa link_indexb) = norb * norb ∧
  ld (FCImake_rdm1b cibra ci norb na nb nlinka nlinkb link_indexa link_indexb)
     (p * norb + p)
  = rdm1b_diag ci na nb nlinkb link_indexb p.
Proof.
  intros Hv Hp. unfold FCImake_rdm1b, rdm1b_diag. cbv zeta.
  assert (Hpp : p * norb + p < norb * norb) by nia.
  match goal with |- _ ∧ ld (symmetrize norb ?R) _ = ?S =>
    cut (length R = norb * norb ∧ ld R (p * norb + p) = S) end.
  { intros [L E]. rewrite <- E.
    destruct (symmetrize_spec norb _ ltac:(rewrite L; lia)) as [Ls Hs].
    split; [lia|]. rewrite Hs by done. by rewrite decide_False by lia. }
  apply (for_rel (fun _ (m : list F) (acc : F) =>
           length m = norb * norb ∧ ld m (p * norb + p) = acc)).
  { split; [by rewrite length_memset0, length_malloc|].
    by rewrite memset0_malloc, ld_malloc. }
  intros str0 m acc Hs R.
  apply (for_rel (fun _ (m : list F) (acc : F) =>
           length m = norb * norb ∧ ld m (p * norb + p) = acc)); [exact R|].
  clear m acc R. intros k m acc Hk R.
  apply (for_rel (fun _ (m : list F) (acc : F) =>
           length m = norb * norb ∧ ld m (p * norb + p) = acc)); [exact R|].
  clear m acc R. intros j m acc Hj [L E]. cbv beta.
  destruct (valid_record _ _ _ _ _ k j Hv Hk Hj) as (Ea & Ei & Es & Eg).
  cbv zeta in Ea, Ei, Es, Eg. rewrite Ea, Ei, Es, Eg. clear Ea Ei Es Eg.
  destruct Hv as (Hnorb & Hnstr & Hv). destruct (Hv k Hk) as [_ Hrec].
  destruct (Hrec j Hj) as (Ha & Hi & Hs' & Hg & Hd).
  destruct (decide (raw_field link_indexb nlinkb k j 0 = Z.of_nat p ∧
                    raw_field link_indexb nlinkb k j 1 = Z.of_nat p))
    as [[Ea Ei]|Hne].
  - destruct (Hd ltac:(congruence)) as [Es2 Eg2].
    rewrite Eg2, Es2, Ea, Ei, Nat2Z.id.
    rewrite !decide_True by lia.
    split; [by rewrite length_add_at|].
    rewrite ld_add_at_eq by lia. rewrite E.
    replace (Z.of_nat (str0 * nb) + Z.of_nat k)%Z
      with (Z.of_nat (str0 * nb + k)) by lia.
    by rewrite ldZ_of_nat.
  - assert (Hc : Z.to_nat (raw_field link_indexb nlinkb k j 0) * norb
                 + Z.to_nat (raw_field link_indexb nlinkb k j 1)
                 ≠ p * norb + p).
    { intros Eq. apply idx_inj in Eq as [Eq1 Eq2]; lia. }
    repeat case_decide; [| |done].
    + split; [by rewrite length_add_at|]. by rewrite ld_add_at_ne.
    + split; [by rewrite length_sub_at|]. by rewrite ld_sub_at_ne.
Qed.

End DiagFacts.


Lemma link2_valid : valid_links link2 2 2 2 1.
Proof.
  split; [simpl; lia|]. split; [lia|].
  intros k Hk. split.
  - destruct k as [|[|k]]; [vm_compute; reflexivity..|lia].
  - intros j Hj.
    destruct k as [|[|k]]; [| |lia];
      (destruct j as [|[|j]]; [| |lia]); vm_compute; intuition congruence.
Qed.



(** ** The rank-k updates, cell by cell *)

Lemma idx_inj_col (n i j i' j' : nat) :
  i < n → i' < n → i + j * n = i' + j' * n → i = i' ∧ j = j'.
Proof.
  intros Hi Hi' E.
  destruct (idx_inj n j i j' i' Hi Hi') as [-> ->]; [lia|done].
Qed.

Section RankUpdateFacts.
Context {F : Type} `{Scalar F}.

Lemma acc_sum_0 init (f : nat → F) : acc_sum 0 init f = init.
Proof. reflexivity. Qed.

Lemma acc_sum_S k init (f : nat → F) :
  acc_sum (S k) init f = fadd (acc_sum k init f) (f k).
Proof. unfold acc_sum. by rewrite for_S. Qed.

Lemma acc_sum_ext k init init' (f g : nat → F) :
  init = init' → (∀ l, l < k → f l = g l) → acc_sum k init f = acc_sum k init' g.
Proof.
  intros -> E. induction k as [|k IH]; [done|].
  rewrite !acc_sum_S, IH by (intros; apply E; lia). by rewrite E by lia.
Qed.

Lemma dgemm_rank_update m n k alpha (A B C : list F) :
  dgemm m n k alpha A B C = rank_update (fun _ => m) m n k alpha A B C.
Proof. reflexivity. Qed.

Lemma dsyrk_rank_update n k alpha (A C : list F) :
  dsyrk n k alpha A C = rank_update S n n k alpha A A C.
Proof. reflexivity. Qed.

(** Cell [(i, j)] of the result is the cell of [C] plus the [k] products
    when row [i] is among the updated rows of column [j], and the cell of
    [C] otherwise. *)
Lemma rank_update_spec rows m n k alpha (A B C0 : list F) :
  length C0 = m * n → (∀ j, j < n → rows j ≤ m) →
  length (rank_update rows m n k alpha A B C0) = m * n ∧
  ∀ i j, i < m → j < n →
    ld (rank_update rows m n k alpha A B C0) (i + j * m) =
      if decide (i < rows j)
      then acc_sum k (ld C0 (i + j * m))
             (fun l => fmul (fmul alpha (ld B (j + l * n))) (ld A (i + l * m)))
      else ld C0 (i + j * m).
Proof.
  intros Hlen Hrows. unfold rank_update.
  set (f := fun i j l => fmul (fmul alpha (ld B (j + l * n))) (ld A (i + l * m))).
  (* the state after the first I rows of round L of column J *)
  set (Q := fun (J L I : nat) (C : list F) => length C = m * n ∧
    ∀ i j, i < m → j < n →
      ld C (i + j * m) =
        if decide (j < J) then
          if decide (i < rows j) then acc_sum k (ld C0 (i + j * m)) (f i j)
          else ld C0 (i + j * m)
        else if decide (j = J) then
          if decide (i < rows j) then
            acc_sum (if decide (i < I) then S L else L) (ld C0 (i + j * m)) (f i j)
          else ld C0 (i + j * m)
        else ld C0 (i + j * m)).
  match goal with |- length ?R = _ ∧ _ => cut (Q n 0 0 R) end.
  { intros [Hl Hc]. split; [done|]. intros i j Hi Hj.
    rewrite Hc by done. rewrite decide_True by done. done. }
  apply (for_ind (fun J C => Q J 0 0 C)).
  { split; [done|]. intros i j Hi Hj. rewrite decide_False by lia.
    repeat case_decide; first [done|lia|by rewrite acc_sum_0]. }
  intros J C HJ HQ.
  match goal with |- Q _ _ _ ?R => cut (Q J k 0 R) end.
  { intros [Hl Hc]. split; [done|]. intros i j Hi Hj. rewrite Hc by done.
    repeat case_decide; subst; first [done|lia|by rewrite acc_sum_0]. }
  apply (for_ind (fun L C => Q J L 0 C)).
  { destruct HQ as [Hl Hc]. split; [done|]. intros i j Hi Hj.
    rewrite Hc by done.
    repeat case_decide; first [done|lia|by rewrite acc_sum_0]. }
  intros L C' HL HQ'. cbv beta zeta.
  match goal with |- Q _ _ _ ?R => cut (Q J L (rows J) R) end.
  { intros [Hl Hc]. split; [done|]. intros i j Hi Hj. rewrite Hc by done.
    repeat case_decide; subst; first [done|lia]. }
  apply (for_ind (fun I C => I ≤ rows J → Q J L I C)); [done| |done].
  intros I C'' HI HQ'' HIr.
  destruct (HQ'' ltac:(lia)) as [Hl Hc]. split; [by rewrite length_add_at|].
  specialize (Hrows J HJ).
  intros i j Hi Hj.
  destruct (decide (i + j * m = I + J * m)) as [E|Hne].
  - apply idx_inj_col in E as [-> ->]; [|lia..].
    rewrite ld_add_at_eq by nia. rewrite Hc by lia.
    rewrite !(decide_False (P := J < J)) by lia.
    rewrite !(decide_True (P := J = J)) by done.
    rewrite !(decide_True (P := I < rows J)) by lia.
    rewrite (decide_False (P := I < I)) by lia.
    rewrite (decide_True (P := I < S I)) by lia.
    by rewrite acc_sum_S.
  - rewrite ld_add_at_ne by lia. rewrite Hc by done.
    assert (¬ (i = I ∧ j = J)) by (intros [-> ->]; lia).
    repeat case_decide; first [done|lia].
Qed.

End RankUpdateFacts.

(** ** The transition build on [bra = ket] against the ground-state build *)

Section Ms0Equiv.
Context {F : Type} `{Scalar F}.
Hypothesis fmul_comm : ∀ x y : F, fmul x y = fmul y x.
Hypothesis fmul_1_l : ∀ x : F, fmul (of_int 1) x = x.

Lemma ld_reduce n (p acc : list F) q :
  length acc = n →
  ld (for_ n (fun i acc => add_at acc i (ld p i)) acc) q =
    if decide (q < n) then fadd (ld acc q) (ld p q) else ld acc q.
Proof.
  intros Hl.
  loop_inv (fun (K : nat) (c : list F) => K ≤ n → length c = n ∧
    ld c q = if decide (q < K) then fadd (ld acc q) (ld p q) else ld acc q).
  - intros _. split; [done|]. by rewrite decide_False by lia.
  - intros K c HK HQ _. destruct (HQ ltac:(lia)) as [Hc Hq].
    split; [by rewrite length_add_at|].
    destruct (decide (q = K)) as [->|Hne].
    + rewrite ld_add_at_eq by lia. rewrite Hq.
      rewrite decide_False by lia. by rewrite decide_True by lia.
    + rewrite ld_add_at_ne by lia. rewrite Hq.
      repeat case_decide; first [done|lia].
  - by apply HI.
Qed.

Lemma upper_agree_cleared n :
  upper_agree n (memset0 (malloc (n * n)) 0 (n * n))
                (memset0 (malloc (F:=F) (n * n)) 0 (n * n)).
Proof.
  rewrite memset0_malloc. split_and!; [apply length_malloc..|done|].
  intros i j _ _. by rewrite !ld_malloc.
Qed.

Lemma upper_agree_update n k (A g t : list F) :
  upper_agree n g t →
  upper_agree n (dsyrk n k D1 A g) (dgemm n n k D1 A A t).
Proof.
  intros (Lg & Lt & Hup & Hsym).
  rewrite dsyrk_rank_update, dgemm_rank_update.
  destruct (rank_update_spec S n n k D1 A A g Lg ltac:(intros; lia)) as [Lg' Hg].
  destruct (rank_update_spec (fun _ => n) n n k D1 A A t Lt ltac:(intros; lia))
    as [Lt' Ht].
  split_and!; [done|done| |].
  - intros i j Hij Hj. rewrite Hg, Ht by lia.
    rewrite !decide_True by lia. apply acc_sum_ext; [by apply Hup|done].
  - intros i j Hi Hj. rewrite !Ht by lia. rewrite !decide_True by lia.
    apply acc_sum_ext; [by apply Hsym|].
    intros l _. unfold D1. rewrite !fmul_1_l. apply fmul_comm.
Qed.

Lemma upper_agree_reduce n (g t pg pt : list F) :
  upper_agree n g t → upper_agree n pg pt →
  upper_agree n (for_ (n * n) (fun i acc => add_at acc i (ld pg i)) g)
                (for_ (n * n) (fun i acc => add_at acc i (ld pt i)) t).
Proof.
  intros (Lg & Lt & Hup & Hsym) (Lpg & Lpt & Hpup & Hpsym).
  split_and!; [by rewrite length_reduce..| |].
  - intros i j Hij Hj. rewrite !ld_reduce by done.
    rewrite !decide_True by nia. by rewrite Hup, Hpup.
  - intros i j Hi Hj. rewrite !ld_reduce by done.
    rewrite !decide_True by nia. by rewrite (Hsym i j), (Hpsym i j).
Qed.

(** Mirroring the matrix accumulated on one triangle gives the symmetric
    full matrix. *)
Lemma upper_agree_symmetrize n (g t : list F) :
  upper_agree n g t → symmetrize n g = t.
Proof.
  intros (Lg & Lt & Hup & Hsym).
  destruct (symmetrize_spec n g ltac:(lia)) as [Ls Hs].
  apply ld_ext; [lia|]. intros p Hp. rewrite Ls, Lg in Hp.
  assert (Hn : n ≠ 0) by lia.
  pose proof (Nat.div_mod_eq p n) as Hdm.
  pose proof (Nat.mod_upper_bound p n Hn) as Hc.
  assert (Hr : p / n < n) by (apply Nat.Div0.div_lt_upper_bound; lia).
  set (r := p / n) in *. set (c := p mod n) in *.
  replace p with (r * n + c) by lia.
  rewrite Hs by done. case_decide.
  - replace (c * n + r) with (r + c * n) by lia.
    replace (r * n + c) with (c + r * n) by lia.
    rewrite Hup by lia. by apply Hsym.
  - replace (r * n + c) with (c + r * n) by lia.
    apply Hup; lia.
Qed.

(** One call of the two ms=0 kernels on the same block. *)
Lemma ms0_kernels_agree rdm1 (g t bra0 ket : list F) fillcnt stra_id strb_id
    norb na nb nlinka nlinkb clink_indexa clink_indexb :
  let csum := (kern_ms0_ab ket (malloc (norb * norb * fillcnt)) fillcnt
                 stra_id strb_id norb na nlinka clink_indexa).2 in
  fltb CSUMTHR csum = negb (fltb csum CSUMTHR) →
  upper_agree (norb * norb) g t →
  (FCIrdm12kern_ms0 rdm1 g bra0 ket fillcnt stra_id strb_id
     norb na nb nlinka nlinkb clink_indexa clink_indexb).1
  = (FCItdm12kern_ms0 rdm1 t ket ket fillcnt stra_id strb_id
       norb na nb nlinka nlinkb clink_indexa clink_indexb).1 ∧
  upper_agree (norb * norb)
    (FCIrdm12kern_ms0 rdm1 g bra0 ket fillcnt stra_id strb_id
       norb na nb nlinka nlinkb clink_indexa clink_indexb).2
    (FCItdm12kern_ms0 rdm1 t ket ket fillcnt stra_id strb_id
       norb na nb nlinka nlinkb clink_indexa clink_indexb).2.
Proof.
  intros csum Hthr Hgt. unfold FCIrdm12kern_ms0, FCItdm12kern_ms0.
  fold csum. rewrite Hthr.
  destruct (fltb csum CSUMTHR); simpl; [done|].
  split; [done|]. by apply upper_agree_update.
Qed.

Lemma drv_worker_agree takes (bra0 ket : list F) norb na nlink clink :
  ms0_threshold_clear ket norb na nlink clink →
  (drv_worker FCIrdm12kern_ms0 takes bra0 ket norb na na nlink nlink clink clink).1
  = (drv_worker FCItdm12kern_ms0 takes ket ket norb na na nlink nlink clink clink).1 ∧
  upper_agree (norb * norb)
    (drv_worker FCIrdm12kern_ms0 takes bra0 ket norb na na nlink nlink clink clink).2
    (drv_worker FCItdm12kern_ms0 takes ket ket norb na na nlink nlink clink clink).2.
Proof.
  intros Hclear. unfold drv_worker.
  apply (for_rel (fun _ (p q : list F * list F) =>
           p.1 = q.1 ∧ upper_agree (norb * norb) p.2 q.2)).
  { simpl. split; [done|]. apply upper_agree_cleared. }
  intros blk p q Hblk Hpq.
  apply (for_rel (fun _ (p q : list F * list F) =>
           p.1 = q.1 ∧ upper_agree (norb * norb) p.2 q.2)); [done|].
  intros strk p' q' Hstrk [E1 E2].
  destruct (takes _ strk); [|done].
  rewrite E1. apply ms0_kernels_agree; [|done].
  apply (Hclear blk strk Hblk Hstrk).
Qed.

(** The reduction of the workers' private matrices into the shared ones. *)
Lemma drv_reduce_agree team (bra0 ket : list F) norb na nlink clink
    (g0 t0 : list F * list F) :
  ms0_threshold_clear ket norb na nlink clink →
  g0.1 = t0.1 → upper_agree (norb * norb) g0.2 t0.2 →
  let reduce (kern : kernel_t) (b : list F) :=
    fun (r : list F * list F) (takes : worker) =>
      let p := drv_worker kern takes b ket norb na na nlink nlink clink clink in
      (for_ (norb * norb) (fun i rdm1 => add_at rdm1 i (ld p.1 i)) r.1,
       for_ (norb * norb * (norb * norb))
            (fun i rdm2 => add_at rdm2 i (ld p.2 i)) r.2) in
  (fold_left (reduce FCIrdm12kern_ms0 bra0) team g0).1
  = (fold_left (reduce FCItdm12kern_ms0 ket) team t0).1 ∧
  upper_agree (norb * norb)
    (fold_left (reduce FCIrdm12kern_ms0 bra0) team g0).2
    (fold_left (reduce FCItdm12kern_ms0 ket) team t0).2.
Proof.
  intros Hclear E1 E2 reduce. revert g0 t0 E1 E2.
  induction team as [|w team IH]; intros g0 t0 E1 E2; [done|].
  simpl. apply IH; unfold reduce; simpl.
  - destruct (drv_worker_agree w bra0 ket norb na nlink clink Hclear) as [W1 _].
    by rewrite E1, W1.
  - destruct (drv_worker_agree w bra0 ket norb na nlink clink Hclear) as [_ W2].
    by apply upper_agree_reduce.
Qed.

Lemma drv_agree team (bra0 ket : list F) norb na nlink link_index :
  ms0_threshold_clear ket norb na nlink
    (compress_link (malloc_link (nlink * na)) link_index norb na nlink) →
  let g := FCIrdm12_drv FCIrdm12kern_ms0 team bra0 ket norb na na nlink nlink
             link_index link_index 0 in
  let t := FCIrdm12_drv FCItdm12kern_ms0 team ket ket norb na na nlink nlink
             link_index link_index 0 in
  g.1 = t.1 ∧ upper_agree (norb * norb) g.2 t.2.
Proof.
  intros Hclear. unfold FCIrdm12_drv. rewrite !decide_False by (intros ?; done).
  apply (drv_reduce_agree team bra0 ket norb na nlink _ _ _ Hclear); simpl.
  - done.
  - apply upper_agree_cleared.
Qed.

End Ms0Equiv.

(** C4, as the code has it.  Where multiplication is commutative with unit
    1 (as it is for doubles, [float_mul_comm] and [float_mul_1_l], and in
    exact arithmetic) and no block has a norm equal to the threshold, the
    transition build
    on [bra = ket] and the ground-state build return the same [rdm2], cell
    by cell, and the ground-state [rdm1] is the transition [rdm1] with its
    lower triangle mirrored: the two agree on the lower triangle and the
    diagonal, and everywhere when the transition [rdm1] is symmetric. *)
Theorem trans_ms0_on_ket {F : Type} `{Scalar F} team (bra0 ket : list F)
    norb na nlink link_index :
  (∀ x y : F, fmul x y = fmul y x) →
  (∀ x : F, fmul (of_int 1) x = x) →
  ms0_threshold_clear ket norb na nlink
    (compress_link (malloc_link (nlink * na)) link_index norb na nlink) →
  let g := FCImake_rdm12_ms0 team bra0 ket norb na nlink link_index in
  let t := FCItrans_rdm12_ms0 team ket ket norb na nlink link_index in
  g.2 = t.2 ∧
  g.1 = symmetrize norb t.1 ∧
  (∀ i j, j ≤ i → i < norb → g.1 !! (i * norb + j) = t.1 !! (i * norb + j)) ∧
  ((∀ i j, i < norb → j < norb → t.1 !! (i * norb + j) = t.1 !! (j * norb + i)) →
   g.1 = t.1).
Proof.
  intros Hcomm Hone Hclear g t.
  destruct (drv_agree Hcomm Hone team ket ket norb na nlink link_index Hclear)
    as [E1 E2].
  assert (Eg : g = (symmetrize norb t.1, t.2)).
  { unfold g, FCImake_rdm12_ms0. rewrite drv_symm by done. cbv zeta.
    rewrite E1. f_equal. by apply upper_agree_symmetrize. }
  assert (Lt : length t.1 = norb * norb) by apply drv_lengths.
  clearbody t. rewrite Eg. simpl. clear Eg g E1 E2.
  destruct (symmetrize_spec norb t.1 ltac:(lia)) as [Ls Hs].
  split_and!; [done|done| |].
  - intros i j Hj Hi. rewrite !lookup_ld by (rewrite ?Ls; nia).
    rewrite Hs by lia. by rewrite decide_False by lia.
  - intros Hsym. apply ld_ext; [done|]. intros p Hp. rewrite Ls, Lt in Hp.
    assert (Hn : norb ≠ 0) by lia.
    pose proof (Nat.div_mod_eq p norb) as Hdm.
    pose proof (Nat.mod_upper_bound p norb Hn) as Hc.
    assert (Hr : p / norb < norb) by (apply Nat.Div0.div_lt_upper_bound; lia).
    set (r := p / norb) in *. set (c := p mod norb) in *.
    replace p with (r * norb + c) by lia.
    rewrite Hs by done. case_decide; [|done].
    specialize (Hsym c r Hc Hr). rewrite !lookup_ld in Hsym by nia.
    congruence.
Qed.

Lemma ket_pair_clear :
  ms0_threshold_clear ket_pair 2 2 2
    (compress_link (malloc_link (2 * 2)) link2 2 2 2).
Proof.
  intros blk strk Hblk Hstrk.
  assert (blk = 0) as -> by (vm_compute in Hblk; lia).
  destruct strk as [|[|strk]]; [vm_compute; reflexivity..|lia].
Qed.

Lemma trans_ms0_on_ket_witness :
  (∀ x y : float, fmul x y = fmul y x) ∧ (∀ x : float, fmul (of_int 1) x = x) ∧
  (FCImake_rdm12_ms0 two_workers [] ket_pair 2 2 2 link2).2
  = (FCItrans_rdm12_ms0 two_workers ket_pair ket_pair 2 2 2 link2).2.
Proof.
  assert (Hcomm : ∀ x y : float, fmul x y = fmul y x)
    by (intros x y; apply float_mul_comm).
  assert (Hone : ∀ x : float, fmul (of_int 1) x = x)
    by (intros x; apply float_mul_1_l).
  split; [exact Hcomm|]. split; [exact Hone|].
  apply (trans_ms0_on_ket two_workers [] ket_pair 2 2 2 link2
           Hcomm Hone ket_pair_clear).
Defined.

(** C4, as stated, fails in two ways.  With [ci = [1e-14,0,0,0]]
    the block of the alpha string 1 has a norm equal to the threshold: the
    ground-state kernel prunes it, the transition kernel does not, and cell
    [(1,0,1,0)] of [rdm2] differs.  With the one-way table the transition
    [rdm1] is not symmetric and is returned as it is, while the ground-state
    build mirrors its lower triangle. *)
Lemma trans_ms0_differs_from_ground :
  (FCItrans_rdm12_ms0 serial ket_tiny ket_tiny 2 2 2 link2).2
    ≠ (FCImake_rdm12_ms0 serial ket_tiny ket_tiny 2 2 2 link2).2 ∧
  (FCItrans_rdm12_ms0 serial ket_1234 ket_1234 2 2 2 link2_oneway).1
    ≠ (FCImake_rdm12_ms0 serial ket_1234 ket_1234 2 2 2 link2_oneway).1.
Proof.
  split.
  - apply (neq_by (fun l => match l !! 10 with
                            | Some v => PrimFloat.ltb v 0x1.8p-93
                            | None => false
                            end)).
    vm_compute. discriminate.
  - apply (neq_by (fun l => match l !! 1 with
                            | Some v => PrimFloat.eqb v 0
                            | None => false
                            end)).
    vm_compute. discriminate.
Qed.

(** * Further properties of the translation unit *)

(** ** The symmetric direct routines *)

Section MakeRdm1Shape.
Context {F : Type} `{Scalar F}.

Lemma for_length {S : Type} (len : S → nat) (n : nat) (body : nat → S → S) (s : S) :
  (∀ k s, k < n → len (body k s) = len s) → len (for_ n body s) = len s.
Proof.
  intros Hb. apply (for_ind (fun _ c => len c = len s)); [done|].
  intros k c Hk Hc. by rewrite Hb.
Qed.

Lemma FCImake_rdm1a_mirror cibra (ciket : list F) norb na nb nlinka nlinkb la lb :
  ∃ m, length m = norb * norb ∧
       FCImake_rdm1a cibra ciket norb na nb nlinka nlinkb la lb = symmetrize norb m.
Proof.
  unfold FCImake_rdm1a. cbv zeta. eexists. split; [|reflexivity].
  rewrite (for_length (length (A:=F))).
  - by rewrite length_memset0, length_malloc.
  - intros str0 m _. apply (for_length (length (A:=F))). intros j m' _.
    repeat case_decide; [| |done];
      apply (for_length (length (A:=F))); intros k m'' _;
      [apply length_add_at|apply length_sub_at].
Qed.

Lemma FCImake_rdm1b_mirror cibra (ciket : list F) norb na nb nlinka nlinkb la lb :
  ∃ m, length m = norb * norb ∧
       FCImake_rdm1b cibra ciket norb na nb nlinka nlinkb la lb = symmetrize norb m.
Proof.
  unfold FCImake_rdm1b. cbv zeta. eexists. split; [|reflexivity].
  rewrite (for_length (length (A:=F))).
  - by rewrite length_memset0, length_malloc.
  - intros str0 m _. apply (for_length (length (A:=F))). intros k m' _.
    apply (for_length (length (A:=F))). intros j m'' _.
    repeat case_decide; [apply length_add_at|apply length_sub_at|done].
Qed.

(** A mirrored matrix is symmetric. *)
Lemma symmetrize_lookup_symmetric n (m : list F) :
  length m = n * n →
  length (symmetrize n m) = n * n ∧
  ∀ i j, i < n → j < n →
    symmetrize n m !! (i * n + j) = symmetrize n m !! (j * n + i).
Proof.
  intros Hl.
  assert (Ls : length (symmetrize n m) = n * n)
    by (rewrite length_symmetrize; lia).
  split; [done|]. intros i j Hi Hj.
  rewrite !lookup_ld by nia. f_equal. apply symmetrize_symmetric; [lia|done..].
Qed.

End MakeRdm1Shape.

(** X1: whatever the coefficients and the link table, [FCImake_rdm1a] and
    [FCImake_rdm1b] return a matrix of [norb * norb] cells that is
    symmetric. *)
Theorem make_rdm1_symmetric {F : Type} `{Scalar F}
    cibra (ciket : list F) norb na nb nlinka nlinkb link_indexa link_indexb :
  let ra := FCImake_rdm1a cibra ciket norb na nb nlinka nlinkb
              link_indexa link_indexb in
  let rb := FCImake_rdm1b cibra ciket norb na nb nlinka nlinkb
              link_indexa link_indexb in
  (length ra = norb * norb ∧
   ∀ i j, i < norb → j < norb → ra !! (i * norb + j) = ra !! (j * norb + i)) ∧
  (length rb = norb * norb ∧
   ∀ i j, i < norb → j < norb → rb !! (i * norb + j) = rb !! (j * norb + i)).
Proof.
  intros ra rb.
  destruct (FCImake_rdm1a_mirror cibra ciket norb na nb nlinka nlinkb
              link_indexa link_indexb) as (ma & La & Ea).
  destruct (FCImake_rdm1b_mirror cibra ciket norb na nb nlinka nlinkb
              link_indexa link_indexb) as (mb & Lb & Eb).
  unfold ra, rb. rewrite Ea, Eb.
  split; by apply symmetrize_lookup_symmetric.
Qed.

Lemma make_rdm1_symmetric_witness :
  0 < 2 ∧ 1 < 2 ∧
  FCImake_rdm1a ket_pair ket_pair 2 2 2 2 2 link2 link2 !! (0 * 2 + 1)
  = FCImake_rdm1a ket_pair ket_pair 2 2 2 2 2 link2 link2 !! (1 * 2 + 0).
Proof.
  split; [exact Nat.lt_0_2|]. split; [exact Nat.lt_1_2|].
  pose proof (make_rdm1_symmetric ket_pair ket_pair 2 2 2 2 2 link2 link2) as Hx.
  cbv zeta in Hx. destruct Hx as [[_ Ha] _].
  exact (Ha 0 1 Nat.lt_0_2 Nat.lt_1_2).
Defined.

(** ** What the kernels read back from a compacted record *)

(** X2: the kernels read a record back into [int] variables
    ([i = EXTRACT_I(tab[j]); ... str1 = EXTRACT_ADDR(tab[j]);]).  For orbital
    indices in [0, 2^8), a sign in [-2^7, 2^7) and any destination that is an
    [int], negative ones included, they read the quadruple that was given to
    [compress_link], although a negative destination is stored as
    [str1 + 2^32]. *)
Theorem compress_link_read_back clink link_index norb nstr nlink k j :
  nstr * nlink ≤ length clink → k < nstr → j < nlink →
  let r := tab_at (compress_link clink link_index norb nstr nlink)
                  (k * nlink + j) in
  let a := raw_field link_index nlink k j 0 in
  let i := raw_field link_index nlink k j 1 in
  let str1 := raw_field link_index nlink k j 2 in
  let sign := raw_field link_index nlink k j 3 in
  (0 ≤ a < 2 ^ 8)%Z → (0 ≤ i < 2 ^ 8)%Z →
  (- 2 ^ 31 ≤ str1 < 2 ^ 31)%Z → (- 2 ^ 7 ≤ sign < 2 ^ 7)%Z →
  Z.of_nat (Z.to_nat (EXTRACT_A r)) = a ∧
  Z.of_nat (Z.to_nat (EXTRACT_I r)) = i ∧
  to_int (EXTRACT_ADDR r) = str1 ∧
  EXTRACT_SIGN r = sign ∧
  ((str1 < 0)%Z → EXTRACT_ADDR r = (str1 + 2 ^ 32)%Z).
Proof.
  intros Hlen Hk Hj r a i str1 sign Ha Hi Hs Hg.
  assert (Hr : r = store_link a i str1 sign).
  { unfold r. rewrite compress_link_at by done. rewrite decide_True by nia. done. }
  rewrite Hr. simpl.
  apply to_uchar_id in Ha as Ea. apply to_uchar_id in Hi as Ei.
  rewrite Ea, Ei. split_and!.
  - lia.
  - lia.
  - by apply to_int_to_uint.
  - by apply to_schar_id.
  - intros Hneg. unfold to_uint.
    rewrite <- (Z_mod_plus_full str1 1 (2 ^ 32)).
    rewrite Z.mod_small; lia.
Qed.

Lemma compress_link_read_back_witness :
  1 * 1 ≤ length (malloc_link 1) ∧
  to_int (EXTRACT_ADDR
            (tab_at (compress_link (malloc_link 1) [3; 7; -5; -1]%Z 8 1 1) 0))
    = (-5)%Z ∧
  EXTRACT_ADDR (tab_at (compress_link (malloc_link 1) [3; 7; -5; -1]%Z 8 1 1) 0)
    = (2 ^ 32 - 5)%Z.
Proof.
  split; [vm_compute; lia|].
  pose proof (compress_link_read_back (malloc_link 1) [3; 7; -5; -1]%Z 8 1 1 0 0
                ltac:(vm_compute; lia) ltac:(lia) ltac:(lia)
                ltac:(vm_compute; split; congruence)
                ltac:(vm_compute; split; congruence)
                ltac:(vm_compute; split; congruence)
                ltac:(vm_compute; split; congruence))
    as (_ & _ & Hs & _ & Hn).
  split; [exact Hs|]. apply Hn. vm_compute. reflexivity.
Defined.

(** ** The blocks of the driver *)



(** ** The spin-restricted kernel and the length of its block *)

(** X4: once the block of [FCIrdm12kern_spin0] reaches the string
    [strb = stra_id] ([strb_id <= stra_id <= strb_id + fillcnt]) the kernel
    stops at that string: its result is the same for every such block
    length.  The bound includes [stra_id = strb_id + fillcnt], where the
    string lies one past the block. *)
Theorem spin0_kernel_stops_at_diagonal {F : Type} `{Scalar F} rdm1 rdm2
    (bra ket : list F) fillcnt fillcnt' stra_id strb_id
    norb na nb nlinka nlinkb clink_indexa clink_indexb :
  strb_id ≤ stra_id →
  stra_id ≤ strb_id + fillcnt → stra_id ≤ strb_id + fillcnt' →
  FCIrdm12kern_spin0 rdm1 rdm2 bra ket fillcnt stra_id strb_id
    norb na nb nlinka nlinkb clink_indexa clink_indexb
  = FCIrdm12kern_spin0 rdm1 rdm2 bra ket fillcnt' stra_id strb_id
      norb na nb nlinka nlinkb clink_indexa clink_indexb.
Proof.
  intros Hle H1 H2. rewrite !spin0_unfold by done. cbv zeta.
  assert (E0 : spin0_fill0 fillcnt stra_id strb_id
               = spin0_fill0 fillcnt' stra_id strb_id)
    by (unfold spin0_fill0; lia).
  assert (E1 : spin0_fill1 fillcnt stra_id strb_id
               = spin0_fill1 fillcnt' stra_id strb_id).
  { unfold spin0_fill1. rewrite E0. by rewrite !decide_True by done. }
  unfold spin0_t1. by rewrite E0, E1.
Qed.

Lemma spin0_kernel_stops_at_diagonal_witness :
  0 ≤ 1 ∧ 1 ≤ 0 + 1 ∧ 1 ≤ 0 + 2 ∧
  FCIrdm12kern_spin0 (malloc 4) (malloc 16) ket_pair ket_pair 1 1 0
    2 2 2 2 2 clink2 clink2
  = FCIrdm12kern_spin0 (malloc 4) (malloc 16) ket_pair ket_pair 2 1 0
      2 2 2 2 2 clink2 clink2.
Proof.
  split; [lia|]. split; [lia|]. split; [lia|].
  apply (spin0_kernel_stops_at_diagonal (malloc 4) (malloc 16) ket_pair ket_pair
           1 2 1 0 2 2 2 2 2 clink2 clink2); lia.
Defined.

(** ** Scratch buffers *)

(** X5: the beta pass [rdm2_0b_t1] and the combined pass [kern_ms0_ab] clear
    each column of T1 before they accumulate into it: on a buffer of
    [fillcnt] columns their result, T1 and norm, does not depend on what the
    buffer held before. *)
Theorem t1_passes_overwrite_scratch {F : Type} `{Scalar F} (ci0 t1 t1' : list F)
    fillcnt stra_id strb_id norb nstrb nlink clink_index tab_off :
  length t1 = length t1' → length t1 ≤ fillcnt * (norb * norb) →
  rdm2_0b_t1 ci0 t1 fillcnt stra_id norb nstrb nlink clink_index tab_off
  = rdm2_0b_t1 ci0 t1' fillcnt stra_id norb nstrb nlink clink_index tab_off ∧
  kern_ms0_ab ci0 t1 fillcnt stra_id strb_id norb nstrb nlink clink_index
  = kern_ms0_ab ci0 t1' fillcnt stra_id strb_id norb nstrb nlink clink_index.
Proof.
  intros Hl Hle. split.
  - by apply rdm2_0b_t1_overwrites.
  - by apply kern_ms0_ab_overwrites.
Qed.

Lemma t1_passes_overwrite_scratch_witness :
  length ket_1234 = length ket_single ∧ length ket_1234 ≤ 1 * (2 * 2) ∧
  rdm2_0b_t1 ket_pair ket_1234 1 0 2 2 2 clink2 0
  = rdm2_0b_t1 ket_pair ket_single 1 0 2 2 2 clink2 0.
Proof.
  assert (Hle : length ket_1234 ≤ 1 * (2 * 2)) by (vm_compute; lia).
  split; [reflexivity|]. split; [exact Hle|].
  pose proof (t1_passes_overwrite_scratch ket_pair ket_1234 ket_single
                1 0 0 2 2 2 clink2 0 eq_refl Hle) as [Hb _].
  exact Hb.
Defined.

(** ** Empty blocks *)

Lemma for_id {S : Type} (n : nat) (body : nat → S → S) (s : S) :
  (∀ k s, k < n → body k s = s) → for_ n body s = s.
Proof.
  intros Hb. apply (for_ind (fun _ c => c = s)); [done|].
  intros k c Hk ->. by apply Hb.
Qed.

Section EmptyBlock.
Context {F : Type} `{Scalar F}.

Lemma dgemv_0 m alpha (A x : list F) off y : dgemv m 0 alpha A x off y = y.
Proof. reflexivity. Qed.

Lemma rank_update_0 rows m n alpha (A B C : list F) :
  rank_update rows m n 0 alpha A B C = C.
Proof. unfold rank_update. apply for_id. intros j c _. reflexivity. Qed.

End EmptyBlock.

(** X6: a block of no strings ([fillcnt = 0]) changes nothing: the kernels
    return the accumulators they were given, pruned or not.  For the
    spin-restricted kernel this holds off the diagonal of the pair space
    only; on [stra_id = strb_id] it builds the column of [strb = stra_id]
    even from an empty block. *)
Theorem empty_block_leaves_accumulators {F : Type} `{Scalar F}
    rdm1 rdm2 (bra ket : list F) stra_id strb_id
    norb na nb nlinka nlinkb clink_indexa clink_indexb :
  let unchanged (kern : kernel_t) :=
    kern rdm1 rdm2 bra ket 0 stra_id strb_id
         norb na nb nlinka nlinkb clink_indexa clink_indexb = (rdm1, rdm2) in
  unchanged FCIrdm12kern_ms0 ∧ unchanged FCIrdm12kern_a ∧
  unchanged FCIrdm12kern_b ∧ unchanged FCItdm12kern_ms0 ∧
  unchanged FCItdm12kern_a ∧ unchanged FCItdm12kern_b ∧
  unchanged FCItdm12kern_ab ∧
  (stra_id ≠ strb_id → unchanged FCIrdm12kern_spin0).
Proof.
  intros unchanged. unfold unchanged.
  split_and!.
  - unfold FCIrdm12kern_ms0. rewrite dsyrk_rank_update, rank_update_0, dgemv_0.
    by case_match.
  - unfold FCIrdm12kern_a. rewrite dsyrk_rank_update, rank_update_0, dgemv_0.
    by case_match.
  - unfold FCIrdm12kern_b. rewrite dsyrk_rank_update, rank_update_0, dgemv_0.
    by case_match.
  - unfold FCItdm12kern_ms0. rewrite dgemm_rank_update, rank_update_0, dgemv_0.
    by repeat case_match.
  - unfold FCItdm12kern_a. rewrite dgemm_rank_update, rank_update_0, dgemv_0.
    by repeat case_match.
  - unfold FCItdm12kern_b. rewrite dgemm_rank_update, rank_update_0, dgemv_0.
    by repeat case_match.
  - unfold FCItdm12kern_ab. rewrite dgemm_rank_update, rank_update_0.
    by repeat case_match.
  - intros Hne. destruct (decide (stra_id < strb_id)) as [Hlt|Hge].
    + unfold FCIrdm12kern_spin0. by rewrite decide_True.
    + rewrite spin0_unfold by lia. cbv zeta.
      assert (E1 : spin0_fill1 0 stra_id strb_id = 0).
      { unfold spin0_fill1, spin0_fill0. rewrite decide_False by lia. lia. }
      rewrite E1, dsyrk_rank_update, rank_update_0, dgemv_0. by case_match.
Qed.

Lemma empty_block_leaves_accumulators_witness :
  1 ≠ 0 ∧
  FCIrdm12kern_spin0 (malloc 4) (malloc 16) ket_pair ket_pair 0 1 0
    2 2 2 2 2 clink2 clink2 = (malloc 4, malloc 16).
Proof.
  split; [lia|].
  apply (empty_block_leaves_accumulators (malloc 4) (malloc 16) ket_pair ket_pair
           1 0 2 2 2 2 2 clink2 clink2). lia.
Defined.

(** On the diagonal an empty block is not left alone: the kernel builds one
    column and accumulates it. *)
Lemma spin0_empty_block_on_diagonal :
  FCIrdm12kern_spin0 (malloc 4) (malloc 16) ket_single ket_single 0 0 0
    2 2 2 2 2 clink2 clink2 ≠ (malloc 4, malloc 16).
Proof.
  apply (neq_by (fun r : list float * list float =>
                   match r.1 !! 0 with
                   | Some v => PrimFloat.eqb v 0
                   | None => false
                   end)).
  vm_compute. discriminate.
Qed.

(** ** The symmetric 1-RDM routines against the transition routines *)

Lemma signed_record link_index norb nstr nlink k j :
  signed_links link_index norb nstr nlink → k < nstr → j < nlink →
  let r := tab_at (compress_link (malloc_link (nlink * nstr)) link_index
                     norb nstr nlink) (k * nlink + j) in
  EXTRACT_A r = raw_field link_index nlink k j 0 ∧
  EXTRACT_I r = raw_field link_index nlink k j 1 ∧
  EXTRACT_SIGN r = raw_field link_index nlink k j 3.
Proof.
  intros (Hnorb & Hv) Hk Hj r.
  destruct (Hv k j Hk Hj) as (Ha & Hi & Hg).
  assert (Hr : r = store_link (raw_field link_index nlink k j 0)
                 (raw_field link_index nlink k j 1)
                 (raw_field link_index nlink k j 2)
                 (raw_field link_index nlink k j 3)).
  { unfold r. rewrite compress_link_at
      by (unfold malloc_link; rewrite length_replicate; lia).
    rewrite decide_True by nia. done. }
  rewrite Hr. simpl.
  assert (Z.of_nat norb ≤ 2 ^ 8)%Z by (change (2 ^ 8)%Z with (Z.of_nat (2 ^ 8)); lia).
  split_and!.
  - apply to_uchar_id. lia.
  - apply to_uchar_id. lia.
  - apply to_schar_id. lia.
Qed.

(** Three facts of double-precision arithmetic: subtracting is adding the
    opposite, a sign moves out of a product, and so a term entered with
    the factor [-1] is a term subtracted. *)
Lemma float_add_opp (x y : float) :
  PrimFloat.add x (PrimFloat.opp y) = PrimFloat.sub x y.
Proof.
  apply Prim2SF_inj. rewrite add_spec, sub_spec, opp_spec.
  destruct (Prim2SF x) as [sx|sx| |sx mx ex], (Prim2SF y) as [sy|sy| |sy my ey];
    try reflexivity;
    destruct sx, sy; reflexivity.
Qed.

Lemma float_mul_opp_l (x y : float) :
  PrimFloat.mul (PrimFloat.opp x) y = PrimFloat.opp (PrimFloat.mul x y).
Proof.
  apply Prim2SF_inj. rewrite opp_spec, !mul_spec, opp_spec.
  destruct (Prim2SF x) as [sx|sx| |sx mx ex], (Prim2SF y) as [sy|sy| |sy my ey];
    try reflexivity;
    try (destruct sx, sy; reflexivity).
  unfold SF64mul, SFmul, SFopp at 1.
  replace (xorb (negb sx) sy) with (negb (xorb sx sy)) by (by destruct sx, sy).
  unfold binary_round_aux.
  destruct (shr_fexp _ _ _ _ _) as [mrs' e'].
  destruct (shr_fexp _ _ _ _ _) as [mrs'' e''].
  destruct (shr_m mrs''); [reflexivity| |reflexivity].
  by destruct (Z.leb _ _).
Qed.

Lemma float_neg_mul_sub (u x y : float) :
  PrimFloat.add u (PrimFloat.mul (PrimFloat.mul (float_of_int (-1)) x) y)
  = PrimFloat.sub u (PrimFloat.mul y x).
Proof.
  change (float_of_int (-1)) with (PrimFloat.opp 1).
  rewrite float_mul_opp_l, float_mul_1_l, float_mul_opp_l, float_add_opp.
  by rewrite float_mul_comm.
Qed.

Section LowAgree.
Context {F : Type} `{Scalar F}.
Hypothesis fmul_comm : ∀ x y : F, fmul x y = fmul y x.
Hypothesis fmul_1_l : ∀ x : F, fmul (of_int 1) x = x.
Hypothesis neg_mul_sub : ∀ u x y : F,
  fadd u (fmul (fmul (of_int (-1)) x) y) = fsub u (fmul y x).

Lemma low_agree_update n (m t : list F) a i (v w : F) :
  low_agree n m t → a < n → i < n → (i ≤ a → v = w) →
  low_agree n (<[a * n + i := v]> m) (<[a * n + i := w]> t).
Proof.
  intros (Lm & Lt & E) Ha Hi Hvw.
  split; [by rewrite length_insert|]. split; [by rewrite length_insert|].
  intros a' i' Hle Ha'.
  destruct (decide (a * n + i = a' * n + i')) as [Eq|Ne].
  - apply idx_inj in Eq as [-> ->]; [|lia..].
    rewrite !ld_insert_eq by nia. apply Hvw. lia.
  - rewrite !ld_insert_ne by done. by apply E.
Qed.

Lemma low_agree_skip n (m t : list F) a i (w : F) :
  low_agree n m t → a < n → i < n → a < i →
  low_agree n m (<[a * n + i := w]> t).
Proof.
  intros (Lm & Lt & E) Ha Hi Hlt.
  split; [done|]. split; [by rewrite length_insert|].
  intros a' i' Hle Ha'.
  rewrite ld_insert_ne; [by apply E|].
  intros Eq. apply idx_inj in Eq as [-> ->]; lia.
Qed.

Lemma low_agree_symmetrize n (m t : list F) :
  low_agree n m t → symmetrize n m = symmetrize n t.
Proof.
  intros (Lm & Lt & E).
  destruct (symmetrize_spec n m ltac:(lia)) as [Lsm Hm].
  destruct (symmetrize_spec n t ltac:(lia)) as [Lst Ht].
  apply ld_ext; [lia|]. intros p Hp. rewrite Lsm, Lm in Hp.
  assert (Hn : n ≠ 0) by lia.
  pose proof (Nat.div_mod_eq p n) as Hdm.
  pose proof (Nat.mod_upper_bound p n Hn) as Hc.
  assert (Hr : p / n < n) by (apply Nat.Div0.div_lt_upper_bound; lia).
  set (r := p / n) in *. set (c := p mod n) in *.
  replace p with (r * n + c) by lia.
  rewrite Hm, Ht by done. case_decide; apply E; lia.
Qed.

Lemma low_agree_cleared n :
  low_agree n (memset0 (malloc (F:=F) (n * n)) 0 (n * n))
              (memset0 (malloc (n * n)) 0 (n * n)).
Proof.
  split; [by rewrite length_memset0, length_malloc|].
  split; [by rewrite length_memset0, length_malloc|]. done.
Qed.

Lemma FCImake_rdm1a_of_trans cibra (ket : list F) norb na nb nlinka nlinkb
    link_indexa link_indexb :
  signed_links link_indexa norb na nlinka →
  FCImake_rdm1a cibra ket norb na nb nlinka nlinkb link_indexa link_indexb
  = symmetrize norb
      (FCItrans_rdm1a ket ket norb na nb nlinka nlinkb link_indexa link_indexb).
Proof.
  intros Hv. unfold FCImake_rdm1a, FCItrans_rdm1a. cbv zeta.
  apply low_agree_symmetrize.
  apply (for_rel (fun _ m t => low_agree norb m t)); [apply low_agree_cleared|].
  intros str0 m t Hs R.
  apply (for_rel (fun _ m t => low_agree norb m t)); [exact R|].
  clear m t R. intros j m t Hj R. cbv beta.
  destruct (signed_record _ _ _ _ str0 j Hv Hs Hj) as (Ea & Ei & Eg).
  cbv zeta in Ea, Ei, Eg. rewrite Ea, Ei, Eg. clear Ea Ei Eg.
  destruct Hv as [Hnorb Hv]. destruct (Hv str0 j Hs Hj) as (Ha & Hi & Hg).
  set (a := Z.to_nat (raw_field link_indexa nlinka str0 j 0)) in *.
  set (i := Z.to_nat (raw_field link_indexa nlinka str0 j 1)) in *.
  assert (a < norb) by lia. assert (i < norb) by lia.
  destruct (decide (i ≤ a)) as [Hia|Hia].
  - destruct Hg as [-> | ->].
    + rewrite decide_True by lia.
      apply (for_rel (fun _ m t => low_agree norb m t)); [exact R|].
      clear m t R. intros k m t Hk R. unfold add_at.
      apply low_agree_update; [done..|]. intros _.
      destruct R as (_ & _ & E). rewrite (E a i) by done.
      rewrite fmul_1_l. first [done | f_equal; apply fmul_comm].
    + rewrite decide_False by lia.
      apply (for_rel (fun _ m t => low_agree norb m t)); [exact R|].
      clear m t R. intros k m t Hk R. unfold add_at, sub_at.
      apply low_agree_update; [done..|]. intros _.
      destruct R as (_ & _ & E). rewrite (E a i) by done.
      rewrite neg_mul_sub. first [done | f_equal; apply fmul_comm].
  - apply (for_ind (fun _ t => low_agree norb m t)); [exact R|].
    intros k t' Hk R'. unfold add_at. apply low_agree_skip; [done..|lia].
Qed.

Lemma FCImake_rdm1b_of_trans cibra (ket : list F) norb na nb nlinka nlinkb
    link_indexa link_indexb :
  signed_links link_indexb norb nb nlinkb →
  FCImake_rdm1b cibra ket norb na nb nlinka nlinkb link_indexa link_indexb
  = symmetrize norb
      (FCItrans_rdm1b ket ket norb na nb nlinka nlinkb link_indexa link_indexb).
Proof.
  intros Hv. unfold FCImake_rdm1b, FCItrans_rdm1b. cbv zeta.
  apply low_agree_symmetrize.
  apply (for_rel (fun _ m t => low_agree norb m t)); [apply low_agree_cleared|].
  intros str0 m t Hs R.
  apply (for_rel (fun _ m t => low_agree norb m t)); [exact R|].
  clear m t R. intros k m t Hk R.
  apply (for_rel (fun _ m t => low_agree norb m t)); [exact R|].
  clear m t R. intros j m t Hj R. cbv beta.
  destruct (signed_record _ _ _ _ k j Hv Hk Hj) as (Ea & Ei & Eg).
  cbv zeta in Ea, Ei, Eg. rewrite Ea, Ei, Eg. clear Ea Ei Eg.
  destruct Hv as [Hnorb Hv]. destruct (Hv k j Hk Hj) as (Ha & Hi & Hg).
  set (a := Z.to_nat (raw_field link_indexb nlinkb k j 0)) in *.
  set (i := Z.to_nat (raw_field link_indexb nlinkb k j 1)) in *.
  assert (a < norb) by lia. assert (i < norb) by lia.
  destruct (decide (i ≤ a)) as [Hia|Hia].
  - destruct Hg as [-> | ->].
    + rewrite decide_True by lia. unfold add_at.
      apply low_agree_update; [done..|]. intros _.
      destruct R as (_ & _ & E). rewrite (E a i) by done.
      rewrite fmul_1_l. first [done | f_equal; apply fmul_comm].
    + rewrite decide_False by lia. unfold add_at, sub_at.
      apply low_agree_update; [done..|]. intros _.
      destruct R as (_ & _ & E). rewrite (E a i) by done.
      rewrite neg_mul_sub. first [done | f_equal; apply fmul_comm].
  - unfold add_at. apply low_agree_skip; [done..|lia].
Qed.

End LowAgree.

(** X7: where the product is commutative with unit 1 and a term entered
    with the factor [-1] is a term subtracted (doubles: [float_mul_comm],
    [float_mul_1_l], [float_neg_mul_sub]; exact arithmetic as well), and for
    a table whose records name orbitals below [norb] and carry signs [+1] or
    [-1], the symmetric 1-RDM routine returns the transition 1-RDM of the
    state with itself with its upper triangle replaced by the mirror of its
    lower triangle, bit for bit; the bra argument of the symmetric routine is
    not read.  For the alpha and the beta routine. *)
Theorem make_rdm1_mirrors_trans_rdm1 {F : Type} `{Scalar F}
    cibra (ket : list F) norb na nb nlinka nlinkb link_indexa link_indexb :
  (∀ x y : F, fmul x y = fmul y x) →
  (∀ x : F, fmul (of_int 1) x = x) →
  (∀ u x y : F, fadd u (fmul (fmul (of_int (-1)) x) y) = fsub u (fmul y x)) →
  (signed_links link_indexa norb na nlinka →
   FCImake_rdm1a cibra ket norb na nb nlinka nlinkb link_indexa link_indexb
   = symmetrize norb
       (FCItrans_rdm1a ket ket norb na nb nlinka nlinkb link_indexa link_indexb)) ∧
  (signed_links link_indexb norb nb nlinkb →
   FCImake_rdm1b cibra ket norb na nb nlinka nlinkb link_indexa link_indexb
   = symmetrize norb
       (FCItrans_rdm1b ket ket norb na nb nlinka nlinkb link_indexa link_indexb)).
Proof.
  intros Hcomm Hone Hneg. split; intros Hv.
  - by apply FCImake_rdm1a_of_trans.
  - by apply FCImake_rdm1b_of_trans.
Qed.

Lemma link2_oneway_signed : signed_links link2_oneway 2 2 2.
Proof.
  split; [vm_compute; lia|]. intros k j Hk Hj.
  (destruct k as [|[|k]]; [| |lia]);
    (destruct j as [|[|j]]; [| |lia]); vm_compute; intuition congruence.
Qed.

Lemma make_rdm1_mirrors_trans_rdm1_witness :
  (∀ x y : float, fmul x y = fmul y x) ∧ (∀ x : float, fmul (of_int 1) x = x) ∧
  (∀ u x y : float,
     fadd u (fmul (fmul (of_int (-1)) x) y) = fsub u (fmul y x)) ∧
  signed_links link2_oneway 2 2 2 ∧
  FCImake_rdm1a ket_pair ket_1234 2 2 2 2 2 link2_oneway link2_oneway
  = symmetrize 2
      (FCItrans_rdm1a ket_1234 ket_1234 2 2 2 2 2 link2_oneway link2_oneway) ∧
  FCImake_rdm1b ket_pair ket_1234 2 2 2 2 2 link2_oneway link2_oneway
  = symmetrize 2
      (FCItrans_rdm1b ket_1234 ket_1234 2 2 2 2 2 link2_oneway link2_oneway).
Proof.
  assert (Hcomm : ∀ x y : float, fmul x y = fmul y x)
    by (intros x y; apply float_mul_comm).
  assert (Hone : ∀ x : float, fmul (of_int 1) x = x)
    by (intros x; apply float_mul_1_l).
  assert (Hneg : ∀ u x y : float,
            fadd u (fmul (fmul (of_int (-1)) x) y) = fsub u (fmul y x))
    by (intros u x y; apply float_neg_mul_sub).
  split; [exact Hcomm|]. split; [exact Hone|]. split; [exact Hneg|].
  split; [exact link2_oneway_signed|].
  pose proof (make_rdm1_mirrors_trans_rdm1 ket_pair ket_1234 2 2 2 2 2
                link2_oneway link2_oneway Hcomm Hone Hneg) as [Ha Hb].
  split; [exact (Ha link2_oneway_signed)|exact (Hb link2_oneway_signed)].
Defined.

(** ** The single-spin kernels against their transition counterparts *)

Section DrvAgree.
Context {F : Type} `{Scalar F}.
Variables (K1 K2 : kernel_t (F:=F)) (bra1 bra2 ket : list F).
Variables (norb na nb nlinka nlinkb : nat) (clinka clinkb : list LinkT).

(** Call by call, on the blocks the driver forms, the first kernel
    accumulates on one triangle what the second accumulates in full. *)
Hypothesis kernels_agree : ∀ blk strk rdm1 g t,
  blk < nblocks nb (Nat.min BUFBASE nb) → strk < na →
  upper_agree (norb * norb) g t →
  let ib := blk * Nat.min BUFBASE nb in
  let blen := Nat.min (Nat.min BUFBASE nb) (nb - ib) in
  (K1 rdm1 g bra1 ket blen strk ib norb na nb nlinka nlinkb clinka clinkb).1
  = (K2 rdm1 t bra2 ket blen strk ib norb na nb nlinka nlinkb clinka clinkb).1 ∧
  upper_agree (norb * norb)
    (K1 rdm1 g bra1 ket blen strk ib norb na nb nlinka nlinkb clinka clinkb).2
    (K2 rdm1 t bra2 ket blen strk ib norb na nb nlinka nlinkb clinka clinkb).2.

Lemma drv_worker_agree_gen takes :
  (drv_worker K1 takes bra1 ket norb na nb nlinka nlinkb clinka clinkb).1
  = (drv_worker K2 takes bra2 ket norb na nb nlinka nlinkb clinka clinkb).1 ∧
  upper_agree (norb * norb)
    (drv_worker K1 takes bra1 ket norb na nb nlinka nlinkb clinka clinkb).2
    (drv_worker K2 takes bra2 ket norb na nb nlinka nlinkb clinka clinkb).2.
Proof.
  unfold drv_worker.
  apply (for_rel (fun _ (p q : list F * list F) =>
           p.1 = q.1 ∧ upper_agree (norb * norb) p.2 q.2)).
  { simpl. split; [done|]. rewrite memset0_malloc.
    split_and!; [apply length_malloc..|done|].
    intros i j _ _. by rewrite !ld_malloc. }
  intros blk p q Hblk Hpq.
  apply (for_rel (fun _ (p q : list F * list F) =>
           p.1 = q.1 ∧ upper_agree (norb * norb) p.2 q.2)); [done|].
  intros strk p' q' Hstrk [E1 E2].
  destruct (takes _ strk); [|done].
  rewrite E1. by apply kernels_agree.
Qed.

Lemma drv_reduce_agree_gen team (g0 t0 : list F * list F) :
  g0.1 = t0.1 → upper_agree (norb * norb) g0.2 t0.2 →
  let reduce (kern : kernel_t) (b : list F) :=
    fun (r : list F * list F) (takes : worker) =>
      let p := drv_worker kern takes b ket norb na nb nlinka nlinkb clinka clinkb in
      (for_ (norb * norb) (fun i rdm1 => add_at rdm1 i (ld p.1 i)) r.1,
       for_ (norb * norb * (norb * norb))
            (fun i rdm2 => add_at rdm2 i (ld p.2 i)) r.2) in
  (fold_left (reduce K1 bra1) team g0).1 = (fold_left (reduce K2 bra2) team t0).1 ∧
  upper_agree (norb * norb)
    (fold_left (reduce K1 bra1) team g0).2 (fold_left (reduce K2 bra2) team t0).2.
Proof.
  intros E1 E2 reduce. revert g0 t0 E1 E2.
  induction team as [|w team IH]; intros g0 t0 E1 E2; [done|].
  simpl. apply IH; unfold reduce; simpl.
  - destruct (drv_worker_agree_gen w) as [W1 _]. by rewrite E1, W1.
  - destruct (drv_worker_agree_gen w) as [_ W2].
    destruct E2 as (Lg & Lt & Hup & Hsym). destruct W2 as (Lpg & Lpt & Hpup & Hpsym).
    split_and!; [by rewrite length_reduce..| |].
    + intros i j Hij Hj. rewrite !ld_reduce by done.
      rewrite !decide_True by nia. by rewrite Hup, Hpup.
    + intros i j Hi Hj. rewrite !ld_reduce by done.
      rewrite !decide_True by nia. by rewrite (Hsym i j), (Hpsym i j).
Qed.

End DrvAgree.

Section SingleSpin.
Context {F : Type} `{Scalar F}.
Hypothesis fmul_comm : ∀ x y : F, fmul x y = fmul y x.
Hypothesis fmul_1_l : ∀ x : F, fmul (of_int 1) x = x.

Lemma drv_symm_of_agree (K1 K2 : kernel_t) team (bra1 bra2 ket : list F)
    norb na nb nlinka nlinkb link_indexa link_indexb :
  (∀ blk strk rdm1 g t,
     blk < nblocks nb (Nat.min BUFBASE nb) → strk < na →
     upper_agree (norb * norb) g t →
     let ib := blk * Nat.min BUFBASE nb in
     let blen := Nat.min (Nat.min BUFBASE nb) (nb - ib) in
     let clinka := compress_link (malloc_link (nlinka * na)) link_indexa
                     norb na nlinka in
     let clinkb := compress_link (malloc_link (nlinkb * nb)) link_indexb
                     norb nb nlinkb in
     (K1 rdm1 g bra1 ket blen strk ib norb na nb nlinka nlinkb clinka clinkb).1
     = (K2 rdm1 t bra2 ket blen strk ib norb na nb nlinka nlinkb clinka clinkb).1 ∧
     upper_agree (norb * norb)
       (K1 rdm1 g bra1 ket blen strk ib norb na nb nlinka nlinkb clinka clinkb).2
       (K2 rdm1 t bra2 ket blen strk ib norb na nb nlinka nlinkb clinka clinkb).2) →
  let g := FCIrdm12_drv K1 team bra1 ket norb na nb nlinka nlinkb
             link_indexa link_indexb 1 in
  let t := FCIrdm12_drv K2 team bra2 ket norb na nb nlinka nlinkb
             link_indexa link_indexb 0 in
  g.2 = t.2 ∧ g.1 = symmetrize norb t.1.
Proof.
  intros Hk g t. unfold g, t, FCIrdm12_drv.
  rewrite decide_True by done. rewrite decide_False by (intros ?; done).
  cbv zeta.
  destruct (drv_reduce_agree_gen K1 K2 bra1 bra2 ket norb na nb nlinka nlinkb
              _ _ Hk team
              (memset0 (malloc (norb * norb)) 0 (norb * norb),
               memset0 (malloc (norb * norb * (norb * norb))) 0
                       (norb * norb * (norb * norb)))
              (memset0 (malloc (norb * norb)) 0 (norb * norb),
               memset0 (malloc (norb * norb * (norb * norb))) 0
                       (norb * norb * (norb * norb)))
              eq_refl (upper_agree_cleared _)) as [E1 E2].
  cbn [fst snd]. split.
  - apply upper_agree_symmetrize. exact E2.
  - f_equal. exact E1.
Qed.

Lemma alpha_kernels_agree rdm1 (g t bra0 ket : list F) fillcnt stra_id strb_id
    norb na nb nlinka nlinkb clink_indexa clink_indexb :
  let buf := memset0 (malloc (norb * norb * fillcnt)) 0 (norb * norb * fillcnt) in
  let csum := (rdm2_a_t1 ket strb_id buf fillcnt stra_id norb nb nlinka
                 clink_indexa).2 in
  fltb CSUMTHR csum = negb (fltb csum CSUMTHR) →
  upper_agree (norb * norb) g t →
  (FCIrdm12kern_a rdm1 g bra0 ket fillcnt stra_id strb_id
     norb na nb nlinka nlinkb clink_indexa clink_indexb).1
  = (FCItdm12kern_a rdm1 t ket ket fillcnt stra_id strb_id
       norb na nb nlinka nlinkb clink_indexa clink_indexb).1 ∧
  upper_agree (norb * norb)
    (FCIrdm12kern_a rdm1 g bra0 ket fillcnt stra_id strb_id
       norb na nb nlinka nlinkb clink_indexa clink_indexb).2
    (FCItdm12kern_a rdm1 t ket ket fillcnt stra_id strb_id
       norb na nb nlinka nlinkb clink_indexa clink_indexb).2.
Proof.
  intros buf csum Hthr Hgt. unfold FCIrdm12kern_a, FCItdm12kern_a.
  cbv zeta. fold buf. fold csum. rewrite Hthr.
  destruct (fltb csum CSUMTHR); simpl; [done|].
  split; [done|]. by apply upper_agree_update.
Qed.

Lemma beta_kernels_agree rdm1 (g t bra0 ket : list F) fillcnt stra_id strb_id
    norb na nb nlinka nlinkb clink_indexa clink_indexb :
  let csum := (rdm2_0b_t1 ket (malloc (norb * norb * fillcnt)) fillcnt stra_id
                 norb nb nlinkb clink_indexb (strb_id * nlinkb)).2 in
  fltb CSUMTHR csum = negb (fltb csum CSUMTHR) →
  upper_agree (norb * norb) g t →
  (FCIrdm12kern_b rdm1 g bra0 ket fillcnt stra_id strb_id
     norb na nb nlinka nlinkb clink_indexa clink_indexb).1
  = (FCItdm12kern_b rdm1 t ket ket fillcnt stra_id strb_id
       norb na nb nlinka nlinkb clink_indexa clink_indexb).1 ∧
  upper_agree (norb * norb)
    (FCIrdm12kern_b rdm1 g bra0 ket fillcnt stra_id strb_id
       norb na nb nlinka nlinkb clink_indexa clink_indexb).2
    (FCItdm12kern_b rdm1 t ket ket fillcnt stra_id strb_id
       norb na nb nlinka nlinkb clink_indexa clink_indexb).2.
Proof.
  intros csum Hthr Hgt. unfold FCIrdm12kern_b, FCItdm12kern_b.
  cbv zeta. fold csum. rewrite Hthr.
  destruct (fltb csum CSUMTHR); simpl; [done|].
  split; [done|]. by apply upper_agree_update.
Qed.

End SingleSpin.

(** X8: where multiplication is commutative with unit 1 (doubles, exact
    arithmetic) and no block has a T1 norm equal to the threshold, the
    driver run with the alpha-only ground-state kernel and mirroring returns
    the [rdm2] that the driver run with the alpha-only transition kernel on
    [bra = ket], without mirroring, returns, and its [rdm1] is the mirrored
    [rdm1] of that run; the same for the beta-only kernels.  This holds for
    every team of workers, and the bra handed to the ground-state kernels is
    not read. *)
Theorem single_spin_kernels_on_ket {F : Type} `{Scalar F} team (bra0 ket : list F)
    norb na nb nlinka nlinkb link_indexa link_indexb :
  (∀ x y : F, fmul x y = fmul y x) →
  (∀ x : F, fmul (of_int 1) x = x) →
  let clinka := compress_link (malloc_link (nlinka * na)) link_indexa norb na nlinka in
  let clinkb := compress_link (malloc_link (nlinkb * nb)) link_indexb norb nb nlinkb in
  let ground (K : kernel_t) :=
    FCIrdm12_drv K team bra0 ket norb na nb nlinka nlinkb link_indexa link_indexb 1 in
  let trans (K : kernel_t) :=
    FCIrdm12_drv K team ket ket norb na nb nlinka nlinkb link_indexa link_indexb 0 in
  (alpha_threshold_clear ket norb na nb nlinka clinka →
   (ground FCIrdm12kern_a).2 = (trans FCItdm12kern_a).2 ∧
   (ground FCIrdm12kern_a).1 = symmetrize norb (trans FCItdm12kern_a).1) ∧
  (beta_threshold_clear ket norb na nb nlinkb clinkb →
   (ground FCIrdm12kern_b).2 = (trans FCItdm12kern_b).2 ∧
   (ground FCIrdm12kern_b).1 = symmetrize norb (trans FCItdm12kern_b).1).
Proof.
  intros Hcomm Hone clinka clinkb ground trans. unfold ground, trans.
  split; intros Hclear.
  - apply drv_symm_of_agree.
    intros blk strk rdm1 g t Hblk Hstrk Hgt. cbv zeta.
    apply (alpha_kernels_agree Hcomm Hone); [|done].
    apply (Hclear blk strk Hblk Hstrk).
  - apply drv_symm_of_agree.
    intros blk strk rdm1 g t Hblk Hstrk Hgt. cbv zeta.
    apply (beta_kernels_agree Hcomm Hone); [|done].
    apply (Hclear blk strk Hblk Hstrk).
Qed.

Lemma ket_1234_alpha_clear :
  alpha_threshold_clear ket_1234 2 2 2 2
    (compress_link (malloc_link (2 * 2)) link2 2 2 2).
Proof.
  intros blk strk Hblk Hstrk.
  assert (blk = 0) as -> by (vm_compute in Hblk; lia).
  destruct strk as [|[|strk]]; [vm_compute; reflexivity..|lia].
Qed.

Lemma ket_1234_beta_clear :
  beta_threshold_clear ket_1234 2 2 2 2
    (compress_link (malloc_link (2 * 2)) link2 2 2 2).
Proof.
  intros blk strk Hblk Hstrk.
  assert (blk = 0) as -> by (vm_compute in Hblk; lia).
  destruct strk as [|[|strk]]; [vm_compute; reflexivity..|lia].
Qed.

Lemma single_spin_kernels_on_ket_witness :
  (∀ x y : float, fmul x y = fmul y x) ∧ (∀ x : float, fmul (of_int 1) x = x) ∧
  (FCIrdm12_drv FCIrdm12kern_a two_workers [] ket_1234 2 2 2 2 2 link2 link2 1).2
  = (FCIrdm12_drv FCItdm12kern_a two_workers ket_1234 ket_1234 2 2 2 2 2
       link2 link2 0).2 ∧
  (FCIrdm12_drv FCIrdm12kern_b two_workers [] ket_1234 2 2 2 2 2 link2 link2 1).2
  = (FCIrdm12_drv FCItdm12kern_b two_workers ket_1234 ket_1234 2 2 2 2 2
       link2 link2 0).2.
Proof.
  assert (Hcomm : ∀ x y : float, fmul x y = fmul y x)
    by (intros x y; apply float_mul_comm).
  assert (Hone : ∀ x : float, fmul (of_int 1) x = x)
    by (intros x; apply float_mul_1_l).
  split; [exact Hcomm|]. split; [exact Hone|].
  pose proof (single_spin_kernels_on_ket two_workers [] ket_1234 2 2 2 2 2
                link2 link2 Hcomm Hone) as Hx.
  cbv zeta in Hx. destruct Hx as [Ha Hb].
  destruct (Ha ket_1234_alpha_clear) as [Ha2 _].
  destruct (Hb ket_1234_beta_clear) as [Hb2 _].
  split; [exact Ha2|exact Hb2].
Defined.
